(** * State-space search: [search.py] and the maze driver

    A shallow embedding of the [Problem] interface, the search-tree [Node],
    [breadth_first_graph_search], [best_first_graph_search] and the
    [MazePuzzle] domain, followed by the properties of the specification
    that were checked against them.

    Python integers are [Z], Python exceptions are the [Raise] branch of
    [outcome], the explored [set()] is a [gset], the [deque] is a list
    whose head is its left end. *)

From stdpp Require Import base gmap sets list strings.
From Stdlib Require Import ZArith Lia.

Local Open Scope Z_scope.
Set Warnings "-register-all".

(** ** Exceptions *)

Inductive exn :=
| NotImplementedError
| IndexError
| KeyError
| TypeError
| EmptyQueue.

Inductive outcome (A : Type) :=
| Ok (a : A)
| Raise (e : exn).
Arguments Ok {A} a.
Arguments Raise {A} e.

(** Sequencing: a raise ends the computation. *)
Definition bind {A B : Type} (m : outcome A) (k : A -> outcome B) : outcome B :=
  match m with
  | Ok a => k a
  | Raise e => Raise e
  end.

Notation "x <- m ;; k" := (bind m (fun x => k))
  (at level 100, m at next level, right associativity).

#[global] Instance outcome_ret : MRet outcome := fun _ a => Ok a.
#[global] Instance outcome_bind : MBind outcome := fun _ _ k m => bind m k.

Section Search.

Context {State Action : Type} `{Countable State}.

(** The order [<] of the states, which [Node.__lt__] relies on. *)
Variable state_lt : State -> State -> bool.

(** ** class Problem *)

(** The methods a concrete domain supplies.  [actions] and [result] may
    raise (the base class raises [NotImplementedError] in both). *)
Record Problem := mkProblem {
  initial : State;
  actions : State -> outcome (list Action);
  result : State -> Action -> outcome State;
  goal_test : State -> bool;
  path_cost : Z -> State -> Action -> State -> Z
}.

(** [Problem.actions] and [Problem.result] of the base class, which a
    domain has to override. *)
Definition Problem_actions (_ : State) : outcome (list Action) :=
  Raise NotImplementedError.

Definition Problem_result (_ : State) (_ : Action) : outcome State :=
  Raise NotImplementedError.

(** The default [Problem.path_cost]: one unit per step. *)
Definition default_path_cost (c : Z) (_ : State) (_ : Action) (_ : State) : Z :=
  c + 1.

(** ** class Node *)

Inductive Node := mkNode {
  state : State;
  parent : option Node;
  action : option Action;
  node_path_cost : Z;
  depth : Z
}.

(** [Node.__init__]: the depth is that of the parent plus one, 0 without
    a parent. *)
Definition Node_init (s : State) (par : option Node) (a : option Action)
    (c : Z) : Node :=
  mkNode s par a c
    (match par with
     | Some p => depth p + 1
     | None => 0
     end).

(** [Node.__eq__] and [Node.__hash__]. *)
Definition Node_eq (n1 n2 : Node) : bool :=
  bool_decide (state n1 = state n2).

Definition Node_hash (hash : State -> Z) (n : Node) : Z :=
  hash (state n).

(** [Node.__lt__]. *)
Definition Node_lt (n1 n2 : Node) : bool :=
  state_lt (state n1) (state n2).

(** [Node.child_node] and [Node.expand]. *)
Definition child_node (p : Problem) (n : Node) (a : Action) : outcome Node :=
  next_state <- result p (state n) a ;;
  Ok (Node_init next_state (Some n) (Some a)
          (path_cost p (node_path_cost n) (state n) a next_state)).

Definition expand (p : Problem) (n : Node) : outcome (list Node) :=
  acts <- actions p (state n) ;;
  mapM (child_node p n) acts.

(** [Node.path]: [path_back] is the list built by the [while] loop. *)
Fixpoint path_back (n : Node) : list Node :=
  match n with
  | mkNode _ par _ _ _ =>
      n :: match par with
           | Some p => path_back p
           | None => []
           end
  end.

Definition path (n : Node) : list Node := reverse (path_back n).

(** [Node.solution]: [node.action] of every node of the path but the
    first. *)
Definition solution (n : Node) : list (option Action) :=
  action <$> drop 1 (path n).

(** ** breadth_first_graph_search *)

(** The control points of the function: the test of [while frontier:],
    the head of [for child in node.expand(problem):] with the children
    still to visit, and the [return].  [step_num] is the counter of the
    source. *)
Inductive bfs_state :=
| BfsLoop (frontier : list Node) (explored : gset State) (step_num : Z)
| BfsFor (children : list Node) (frontier : list Node)
    (explored : gset State) (step_num : Z)
| BfsDone (r : outcome (option Node)).

(** [child not in frontier], decided by [Node.__eq__]. *)
Definition deque_contains (frontier : list Node) (child : Node) : bool :=
  existsb (fun item => Node_eq item child) frontier.

(** The code before the loop. *)
Definition bfs_init (p : Problem) : bfs_state :=
  let node := Node_init (initial p) None None 0 in
  if goal_test p (state node) then BfsDone (Ok (Some node))
  else BfsLoop [node] ∅ 0.

Definition bfs_step (p : Problem) (step_limits : Z) (st : bfs_state)
    : bfs_state :=
  match st with
  | BfsLoop [] _ _ => BfsDone (Ok None)
  | BfsLoop (node :: frontier) explored step_num =>
      let step_num := step_num + 1 in
      if (step_limits >? 0) && (step_num >=? step_limits)
      then BfsDone (Ok (Some node))
      else
        let explored := explored ∪ {[state node]} in
        match expand p node with
        | Raise e => BfsDone (Raise e)
        | Ok children => BfsFor children frontier explored step_num
        end
  | BfsFor [] frontier explored step_num =>
      BfsLoop frontier explored step_num
  | BfsFor (child :: children) frontier explored step_num =>
      if bool_decide (state child ∉ explored)
         && negb (deque_contains frontier child)
      then
        if goal_test p (state child) then BfsDone (Ok (Some child))
        else BfsFor children (frontier ++ [child]) explored step_num
      else BfsFor children frontier explored step_num
  | BfsDone r => BfsDone r
  end.

Fixpoint bfs_steps (p : Problem) (step_limits : Z) (n : nat)
    (st : bfs_state) : bfs_state :=
  match n with
  | O => st
  | S n => bfs_steps p step_limits n (bfs_step p step_limits st)
  end.

(** The function itself: [None] when [fuel] control points were not
    enough to reach a [return] or a raise. *)
Definition breadth_first_graph_search (fuel : nat) (p : Problem)
    (step_limits : Z) : option (outcome (option Node)) :=
  match bfs_steps p step_limits fuel (bfs_init p) with
  | BfsDone r => Some r
  | _ => None
  end.

(** ** The priority frontier *)

(** The priority-ordered frontier of the utility layer ([PriorityQueue] of
    [utils]) is imported by the sources and not among them.  It is a list
    of entries [(f(item), item)] here; membership, lookup and removal go by
    key and are decided by [Node.__eq__]. *)

(** Modelled from the spec: the order of the entries of the missing
    [PriorityQueue], ascending in the score; entries of equal score are
    ordered by [Node.__lt__], as Python orders pairs. *)
Definition entry_lt (e1 e2 : Z * Node) : bool :=
  (e1.1 <? e2.1)
  || ((e1.1 =? e2.1) && negb (Node_eq e1.2 e2.2) && Node_lt e1.2 e2.2).

(** Modelled from the spec: [append] of the missing [PriorityQueue],
    which stores the item with its score. *)
Definition pq_append (f : Node -> Z) (q : list (Z * Node)) (item : Node)
    : list (Z * Node) :=
  q ++ [(f item, item)].

(** Modelled from the spec: the selection made by [pop] of the missing
    [PriorityQueue], the least entry of [e :: q] and the other entries in
    their order. *)
Fixpoint pq_extract (e : Z * Node) (q : list (Z * Node))
    : (Z * Node) * list (Z * Node) :=
  match q with
  | [] => (e, [])
  | x :: q' =>
      let mr := pq_extract x q' in
      if entry_lt mr.1 e then (mr.1, e :: mr.2) else (e, q)
  end.

(** Modelled from the spec: [pop] of the missing [PriorityQueue], which
    removes the entry of least score and returns its item. *)
Definition pq_pop (q : list (Z * Node)) : outcome (Node * list (Z * Node)) :=
  match q with
  | [] => Raise EmptyQueue
  | e :: q' => let mr := pq_extract e q' in Ok (mr.1.2, mr.2)
  end.

(** Modelled from the spec: [key in queue], [queue[key]] and
    [del queue[key]] of the missing [PriorityQueue]: is there an entry for
    the state of [key], the score stored with it, the queue without it. *)
Definition pq_contains (q : list (Z * Node)) (key : Node) : bool :=
  existsb (fun e => Node_eq e.2 key) q.

Fixpoint pq_getitem (q : list (Z * Node)) (key : Node) : outcome Z :=
  match q with
  | [] => Raise KeyError
  | e :: q' => if Node_eq e.2 key then Ok e.1 else pq_getitem q' key
  end.

Fixpoint pq_delitem (q : list (Z * Node)) (key : Node)
    : outcome (list (Z * Node)) :=
  match q with
  | [] => Raise KeyError
  | e :: q' =>
      if Node_eq e.2 key then Ok q'
      else q'' <- pq_delitem q' key ;; Ok (e :: q'')
  end.

(** ** best_first_graph_search *)

(** Modelled from the spec: the memoizer of the utility layer ([memoize]
    of [utils], which the sources import and do not contain).  It stores
    the score of a node on the node and returns the stored score from
    then on; a score of this model reads nothing but its argument, so the
    stored score is the score. *)
Definition memoize (f : Node -> Z) : Node -> Z := f.

(** The control points, as for breadth-first search.  [display] only
    prints before the [return] and is left out. *)
Inductive best_state :=
| BestLoop (frontier : list (Z * Node)) (explored : gset State) (step_num : Z)
| BestFor (children : list Node) (frontier : list (Z * Node))
    (explored : gset State) (step_num : Z)
| BestDone (r : outcome (option Node)).

Definition best_init (p : Problem) (f : Node -> Z) : best_state :=
  let node := Node_init (initial p) None None 0 in
  BestLoop (pq_append f [] node) ∅ 0.

Definition best_step (p : Problem) (f : Node -> Z) (st : best_state)
    : best_state :=
  match st with
  | BestLoop [] _ _ => BestDone (Ok None)
  | BestLoop (e :: q) explored step_num =>
      let step_num := step_num + 1 in
      match pq_pop (e :: q) with
      | Raise err => BestDone (Raise err)
      | Ok (node, frontier) =>
          if goal_test p (state node) then BestDone (Ok (Some node))
          else
            let explored := explored ∪ {[state node]} in
            match expand p node with
            | Raise err => BestDone (Raise err)
            | Ok children => BestFor children frontier explored step_num
            end
      end
  | BestFor [] frontier explored step_num =>
      BestLoop frontier explored step_num
  | BestFor (child :: children) frontier explored step_num =>
      if bool_decide (state child ∉ explored)
         && negb (pq_contains frontier child)
      then BestFor children (pq_append f frontier child) explored step_num
      else if pq_contains frontier child
      then
        match pq_getitem frontier child with
        | Raise err => BestDone (Raise err)
        | Ok f_old =>
            if f child <? f_old
            then
              match pq_delitem frontier child with
              | Raise err => BestDone (Raise err)
              | Ok frontier' =>
                  BestFor children (pq_append f frontier' child)
                    explored step_num
              end
            else BestFor children frontier explored step_num
        end
      else BestFor children frontier explored step_num
  | BestDone r => BestDone r
  end.

Fixpoint best_steps (p : Problem) (f : Node -> Z) (n : nat)
    (st : best_state) : best_state :=
  match n with
  | O => st
  | S n => best_steps p f n (best_step p f st)
  end.

Definition best_first_graph_search (fuel : nat) (p : Problem)
    (f : Node -> Z) : option (outcome (option Node)) :=
  let f := memoize f in
  match best_steps p f fuel (best_init p f) with
  | BestDone r => Some r
  | _ => None
  end.

(** ** Notions the properties are stated with *)

(** The variables of a loop state of either search. *)
Definition bfs_vars (st : bfs_state) : option (list Node * gset State) :=
  match st with
  | BfsLoop frontier explored _ | BfsFor _ frontier explored _ =>
      Some (frontier, explored)
  | BfsDone _ => None
  end.

Definition best_vars (st : best_state)
    : option (list (Z * Node) * gset State) :=
  match st with
  | BestLoop frontier explored _ | BestFor _ frontier explored _ =>
      Some (frontier, explored)
  | BestDone _ => None
  end.

(** No state of the frontier is explored, none occurs twice in it. *)
Definition dedup (frontier_states : list State) (explored : gset State)
    : Prop :=
  NoDup frontier_states /\ forall s, s ∈ frontier_states -> s ∉ explored.

Definition bfs_dedup (st : bfs_state) : Prop :=
  match bfs_vars st with
  | Some (frontier, explored) => dedup (state <$> frontier) explored
  | None => True
  end.

Definition best_dedup (st : best_state) : Prop :=
  match best_vars st with
  | Some (frontier, explored) =>
      dedup ((fun e => state e.2) <$> frontier) explored
  | None => True
  end.

(** [step_num] counts the nodes expanded so far and, when the limit is
    on, has not reached it at a loop state. *)
Definition bfs_counted (step_limits : Z) (st : bfs_state) : Prop :=
  match st with
  | BfsLoop _ explored step_num | BfsFor _ _ explored step_num =>
      step_num = Z.of_nat (size explored)
      /\ (0 < step_limits -> step_num < step_limits)
  | BfsDone _ => True
  end.

(** What the loop body does to the node it pops when it does not return
    it: the node's state is explored and its children are visited. *)
Definition bfs_expansion (p : Problem) (node : Node) (frontier : list Node)
    (explored : gset State) (step_num : Z) : bfs_state :=
  match expand p node with
  | Raise e => BfsDone (Raise e)
  | Ok children =>
      BfsFor children frontier (explored ∪ {[state node]}) (step_num + 1)
  end.

(** The states of the frontier and of the children still to visit lie in
    a given set. *)
Definition bfs_within (U : gset State) (st : bfs_state) : Prop :=
  match st with
  | BfsLoop frontier _ _ => Forall (fun n => state n ∈ U) frontier
  | BfsFor children frontier _ _ =>
      Forall (fun n => state n ∈ U) frontier
      /\ Forall (fun n => state n ∈ U) children
  | BfsDone _ => True
  end.

Definition best_within (U : gset State) (st : best_state) : Prop :=
  match st with
  | BestLoop frontier _ _ => Forall (fun e => state e.2 ∈ U) frontier
  | BestFor children frontier _ _ =>
      Forall (fun e => state e.2 ∈ U) frontier
      /\ Forall (fun n => state n ∈ U) children
  | BestDone _ => True
  end.

(** Folding [problem.result] over a sequence of actions. *)
Fixpoint apply_actions (p : Problem) (s : State) (acts : list Action)
    : outcome State :=
  match acts with
  | [] => Ok s
  | a :: acts => s' <- result p s a ;; apply_actions p s' acts
  end.

(** [plan p s acts t]: from [s], every action of [acts] is among the
    actions of the state it is applied in, and the last state is [t]. *)
Inductive plan (p : Problem) : State -> list Action -> State -> Prop :=
| plan_nil s : plan p s [] s
| plan_cons s a acts s' t avail :
    actions p s = Ok avail -> a ∈ avail -> result p s a = Ok s' ->
    plan p s' acts t ->
    plan p s (a :: acts) t.

(** The nodes obtained from the root by repeated [expand]. *)
Inductive generated (p : Problem) : Node -> Prop :=
| generated_root : generated p (Node_init (initial p) None None 0)
| generated_child n children c :
    generated p n -> expand p n = Ok children -> c ∈ children ->
    generated p c.

(** [reach p k s]: some sequence of [k] admissible actions leads from
    the initial state to [s]. *)
Inductive reach (p : Problem) : nat -> State -> Prop :=
| reach_init : reach p 0 (initial p)
| reach_step k s a s' avail :
    reach p k s -> actions p s = Ok avail -> a ∈ avail ->
    result p s a = Ok s' ->
    reach p (S k) s'.

(** No sequence of actions reaches the state of [n] in fewer steps than
    the depth of [n]. *)
Definition shallowest (p : Problem) (n : Node) : Prop :=
  forall k, reach p k (state n) -> depth n <= Z.of_nat k.

(** A frontier in two layers: nodes of depth [d], then nodes of depth
    [d + 1]. *)
Definition layered (d : Z) (frontier : list Node) : Prop :=
  exists Fa Fb,
    frontier = Fa ++ Fb
    /\ Forall (fun m => depth m = d) Fa
    /\ Forall (fun m => depth m = d + 1) Fb.

Definition node_ok (p : Problem) (m : Node) : Prop :=
  generated p m /\ shallowest p m /\ goal_test p (state m) = false.

(** Every successor of an explored state is explored or in the frontier,
    or is a child, still to visit, of the node being expanded. *)
Definition closure (p : Problem) (explored : gset State)
    (frontier : list Node) (current : State) (children : list Node) : Prop :=
  forall s avail a s',
    s ∈ explored -> actions p s = Ok avail -> a ∈ avail ->
    result p s a = Ok s' ->
    s' ∈ explored \/ s' ∈ state <$> frontier
    \/ (s = current /\ s' ∈ state <$> children).

(** A goal node no goal state is reached in fewer steps than. *)
Definition optimal (p : Problem) (n : Node) : Prop :=
  generated p n /\ goal_test p (state n) = true
  /\ forall k t, reach p k t -> goal_test p t = true -> depth n <= Z.of_nat k.

Definition bfs_level_inv (p : Problem) (st : bfs_state) : Prop :=
  match st with
  | BfsLoop frontier explored _ =>
      (exists d, layered d frontier)
      /\ Forall (node_ok p) frontier
      /\ (forall s, s ∈ explored -> goal_test p s = false)
      /\ closure p explored frontier (initial p) []
      /\ (initial p ∈ explored \/ initial p ∈ state <$> frontier)
  | BfsFor children frontier explored _ =>
      exists node,
        generated p node /\ shallowest p node /\ state node ∈ explored
        /\ Forall (fun c => generated p c /\ depth c = depth node + 1) children
        /\ layered (depth node) frontier
        /\ Forall (node_ok p) frontier
        /\ (forall s, s ∈ explored -> goal_test p s = false)
        /\ closure p explored frontier (state node) children
        /\ (initial p ∈ explored \/ initial p ∈ state <$> frontier)
  | BfsDone (Ok (Some n)) => optimal p n
  | BfsDone _ => True
  end.

End Search.

Arguments Problem : clear implicits.
Arguments Node : clear implicits.

(** ** Further notions *)

Section MoreNotions.

Context {State Action : Type} `{Countable State}.

(** The nodes a breadth-first search holds, and the node it returns,
    were generated from the root. *)
Definition bfs_genuine (p : Problem State Action)
    (st : @bfs_state State Action _ _) : Prop :=
  match st with
  | BfsLoop frontier _ _ => Forall (generated p) frontier
  | BfsFor children frontier _ _ =>
      Forall (generated p) frontier /\ Forall (generated p) children
  | BfsDone (Ok (Some n)) => generated p n
  | BfsDone _ => True
  end.

(** No sequence of admissible actions leads from the initial state to a
    goal state. *)
Definition no_goal_reachable (p : Problem State Action) : Prop :=
  forall acts t, plan p (initial p) acts t -> goal_test p t = false.

(** Every successor of an explored state is explored, in the priority
    frontier, or a child still to visit. *)
Definition best_closure (p : Problem State Action) (explored : gset State)
    (frontier : list (Z * Node State Action))
    (children : list (Node State Action)) : Prop :=
  forall s avail a s',
    s ∈ explored -> actions p s = Ok avail -> a ∈ avail ->
    result p s a = Ok s' ->
    s' ∈ explored \/ s' ∈ (fun e => state e.2) <$> frontier
    \/ s' ∈ state <$> children.

(** What best-first search keeps: generated nodes only, no goal among the
    explored states, the explored states closed as above; a returned node
    is a generated goal node, and [None] is returned when no goal can be
    reached. *)
Definition best_sound_inv (p : Problem State Action)
    (st : @best_state State Action _ _) : Prop :=
  match st with
  | BestLoop frontier explored _ =>
      Forall (fun e => generated p e.2) frontier
      /\ (forall s, s ∈ explored -> goal_test p s = false)
      /\ best_closure p explored frontier []
      /\ (initial p ∈ explored
          \/ initial p ∈ (fun e => state e.2) <$> frontier)
  | BestFor children frontier explored _ =>
      Forall (fun e => generated p e.2) frontier
      /\ Forall (generated p) children
      /\ (forall s, s ∈ explored -> goal_test p s = false)
      /\ best_closure p explored frontier children
      /\ (initial p ∈ explored
          \/ initial p ∈ (fun e => state e.2) <$> frontier)
  | BestDone (Ok (Some n)) => generated p n /\ goal_test p (state n) = true
  | BestDone (Ok None) => no_goal_reachable p
  | BestDone (Raise _) => True
  end.

End MoreNotions.

(** ** class MazePuzzle *)

(** [seq[i]] of a Python list: negative indices count from the end,
    anything else out of range raises [IndexError]. *)
Definition py_getitem {A : Type} (l : list A) (i : Z) : outcome A :=
  let n := Z.of_nat (length l) in
  let j := if i <? 0 then i + n else i in
  if (0 <=? j) && (j <? n)
  then match l !! Z.to_nat j with
       | Some a => Ok a
       | None => Raise IndexError
       end
  else Raise IndexError.

Record MazePuzzle := mkMazePuzzle {
  mp_initial : Z * Z;
  mp_goal : Z * Z;
  mp_maze : list (list string)
}.

(** [self.maze[i][j] == '.'] *)
Definition passable (maze : list (list string)) (i j : Z) : outcome bool :=
  row <- py_getitem maze i ;;
  cell <- py_getitem row j ;;
  Ok (bool_decide (cell = "."%string)).

Definition MazePuzzle_actions (self : MazePuzzle) (st : Z * Z)
    : outcome (list string) :=
  let maze := mp_maze self in
  let acts : list string := [] in
  let '(x, y) := st in
  up <- (if x >? 0 then passable maze (x - 1) y else Ok false) ;;
  let acts := if up then acts ++ ["UP"%string] else acts in
  down <- (if x <? Z.of_nat (length maze) - 1
           then passable maze (x + 1) y else Ok false) ;;
  let acts := if down then acts ++ ["DOWN"%string] else acts in
  left <- (if y >? 0 then passable maze x (y - 1) else Ok false) ;;
  let acts := if left then acts ++ ["LEFT"%string] else acts in
  right <- (row0 <- py_getitem maze 0 ;;
            if y <? Z.of_nat (length row0) - 1
            then passable maze x (y + 1) else Ok false) ;;
  let acts := if right then acts ++ ["RIGHT"%string] else acts in
  Ok acts.

(** [MazePuzzle.result]: [None] is the value the method returns when no
    branch of the [if] chain is taken. *)
Definition MazePuzzle_result (st : Z * Z) (a : string) : option (Z * Z) :=
  let '(x, y) := st in
  if bool_decide (a = "UP"%string) then Some (x - 1, y)
  else if bool_decide (a = "DOWN"%string) then Some (x + 1, y)
  else if bool_decide (a = "LEFT"%string) then Some (x, y - 1)
  else if bool_decide (a = "RIGHT"%string) then Some (x, y + 1)
  else None.

Definition MazePuzzle_goal_test (self : MazePuzzle) (st : Z * Z) : bool :=
  bool_decide (st = mp_goal self).

(** [MazePuzzle.h], the Manhattan distance to the goal. *)
Definition MazePuzzle_h (self : MazePuzzle) (node : Node (Z * Z) string) : Z :=
  Z.abs ((state node).1 - (mp_goal self).1)
  + Z.abs ((state node).2 - (mp_goal self).2).

(** [<] on pairs of integers, which [Node.__lt__] applies to the states. *)
Definition tuple_lt (s1 s2 : Z * Z) : bool :=
  (s1.1 <? s2.1) || ((s1.1 =? s2.1) && (s1.2 <? s2.2)).

(** The maze as a [Problem].  A [None] returned by [result] is not a
    state: the source stores it in the child and raises [TypeError] when
    it unpacks that child's state; here the raise is at the call. *)
Definition MazePuzzle_problem (self : MazePuzzle) : Problem (Z * Z) string :=
  {| initial := mp_initial self;
     actions := MazePuzzle_actions self;
     result := fun st a =>
       match MazePuzzle_result st a with
       | Some st' => Ok st'
       | None => Raise TypeError
       end;
     goal_test := MazePuzzle_goal_test self;
     path_cost := default_path_cost |}.

(** ** maze_puzzle_game.py *)

Definition maze : list (list string) :=
  [ ["."; "."; "."; "#"; "."];
    ["."; "."; "."; "."; "."];
    ["#"; "."; "#"; "."; "#"];
    ["."; "."; "."; "#"; "."];
    ["."; "#"; "."; "."; "."] ]%string.

Definition puzzle : MazePuzzle := mkMazePuzzle (0, 0) (4, 4) maze.


(** A walk through the grid: every action is one of the four moves and
    leads to a cell inside the grid that holds ['.']. *)
Definition cell_passable (grid : list (list string)) (st : Z * Z) : bool :=
  (0 <=? st.1) && (0 <=? st.2)
  && match grid !! Z.to_nat st.1 with
     | Some row => bool_decide (row !! Z.to_nat st.2 = Some "."%string)
     | None => false
     end.

Fixpoint maze_walk (grid : list (list string)) (st : Z * Z)
    (acts : list string) : option (Z * Z) :=
  match acts with
  | [] => Some st
  | a :: acts =>
      match MazePuzzle_result st a with
      | Some st' =>
          if cell_passable grid st' then maze_walk grid st' acts else None
      | None => None
      end
  end.

(** The shape of a grid: its number of rows, the length of its first row,
    all rows of that length; a cell that lies inside; the set of the cells
    inside. *)
Definition grid_rows (grid : list (list string)) : Z :=
  Z.of_nat (length grid).

Definition grid_cols (grid : list (list string)) : Z :=
  match grid with
  | [] => 0
  | row :: _ => Z.of_nat (length row)
  end.

Definition rectangular (grid : list (list string)) : Prop :=
  Forall (fun row => Z.of_nat (length row) = grid_cols grid) grid.

Definition in_grid (grid : list (list string)) (st : Z * Z) : Prop :=
  0 <= st.1 < grid_rows grid /\ 0 <= st.2 < grid_cols grid.

Definition grid_cells (grid : list (list string)) : gset (Z * Z) :=
  list_to_set
    (mbind (fun i => (fun j => (i, j)) <$> seqZ 0 (grid_cols grid))
       (seqZ 0 (grid_rows grid))).

(** The move that undoes a move. *)
Definition opposite (a : string) : string :=
  if bool_decide (a = "UP"%string) then "DOWN"%string
  else if bool_decide (a = "DOWN"%string) then "UP"%string
  else if bool_decide (a = "LEFT"%string) then "RIGHT"%string
  else "LEFT"%string.

(** ** Instances the properties are tried on *)

(** A corridor whose goal lies behind a wall. *)
Definition corridor : MazePuzzle :=
  mkMazePuzzle (0, 0) (0, 3) [ ["."; "."; "#"; "."] ]%string.

(** The node of the first action of the maze. *)
Definition first_child : Node (Z * Z) string :=
  Node_init (1, 0) (Some (Node_init (0, 0) None None 0))
    (Some "DOWN"%string) 1.

(** A score that prefers deep nodes. *)
Definition deepest_first (n : Node (Z * Z) string) : Z := - depth n.

(** * Properties *)

Section SearchFacts.

Context {State Action : Type} `{Countable State}.
Variable state_lt : State -> State -> bool.

Implicit Types (p : Problem State Action) (n c : Node State Action).

(** ** Nodes *)

Lemma bind_Ok {A B : Type} (m : outcome A) (k : A -> outcome B) (b : B) :
  bind m k = Ok b -> exists a, m = Ok a /\ k a = Ok b.
Proof. destruct m as [a|e]; simpl; [eauto | discriminate]. Qed.

Lemma mapM_Ok {A B : Type} (f : A -> outcome B) (l : list A) (k : list B) :
  mapM f l = Ok k -> Forall2 (fun a b => f a = Ok b) l k.
Proof.
  revert k. induction l as [|a l IH]; intros k Hk; simpl in Hk.
  - injection Hk as <-. constructor.
  - apply bind_Ok in Hk as (b & Hb & Hk).
    apply bind_Ok in Hk as (k' & Hk' & Hk).
    injection Hk as <-. constructor; auto.
Qed.

Lemma child_node_Ok p n a c :
  child_node p n a = Ok c ->
  exists s', result p (state n) a = Ok s'
    /\ c = Node_init s' (Some n) (Some a)
             (path_cost p (node_path_cost n) (state n) a s').
Proof.
  unfold child_node. intros Hc. apply bind_Ok in Hc as (s' & Hs & Hc).
  injection Hc as <-. eauto.
Qed.

Lemma expand_Ok p n children c :
  expand p n = Ok children -> c ∈ children ->
  exists avail a s',
    actions p (state n) = Ok avail /\ a ∈ avail
    /\ result p (state n) a = Ok s'
    /\ c = Node_init s' (Some n) (Some a)
             (path_cost p (node_path_cost n) (state n) a s').
Proof.
  unfold expand. intros He Hc. apply bind_Ok in He as (avail & Ha & He).
  apply mapM_Ok in He.
  apply list_elem_of_lookup in Hc as [i Hi].
  destruct (Forall2_lookup_r _ _ _ _ _ He Hi) as (a & Hai & Hca).
  apply child_node_Ok in Hca as (s' & Hs' & ->).
  exists avail, a, s'. split_and!; auto.
  apply list_elem_of_lookup. eauto.
Qed.

Lemma path_child (s : State) n (a : option Action) (cost : Z) :
  path (Node_init s (Some n) a cost)
  = path n ++ [Node_init s (Some n) a cost].
Proof. unfold path. simpl. by rewrite reverse_cons. Qed.

Lemma path_root (s : State) (a : option Action) (cost : Z) :
  path (Node_init s None a cost) = [Node_init s None a cost].
Proof. reflexivity. Qed.

Lemma apply_actions_snoc p s acts a t t' :
  apply_actions p s acts = Ok t -> result p t a = Ok t' ->
  apply_actions p s (acts ++ [a]) = Ok t'.
Proof.
  revert s. induction acts as [|b acts IH]; simpl; intros s Hs Ht.
  - injection Hs as ->. by rewrite Ht.
  - apply bind_Ok in Hs as (s' & Hs' & Hs). rewrite Hs'. simpl. eauto.
Qed.

Lemma plan_snoc p s acts a t t' avail :
  plan p s acts t -> actions p t = Ok avail -> a ∈ avail ->
  result p t a = Ok t' ->
  plan p s (acts ++ [a]) t'.
Proof.
  induction 1; intros Ha Hin Hr; simpl.
  - econstructor; eauto. constructor.
  - econstructor; eauto.
Qed.

(** What [path] and [solution] are on a generated node. *)
Lemma generated_spec p n :
  generated p n ->
  exists rest acts,
    path n = Node_init (initial p) None None 0 :: rest
    /\ solution n = action <$> rest
    /\ solution n = Some <$> acts
    /\ Z.of_nat (length acts) = depth n
    /\ apply_actions p (initial p) acts = Ok (state n)
    /\ plan p (initial p) acts (state n).
Proof.
  induction 1 as [|n children c Hn IH He Hc].
  - exists [], []. split_and!; try reflexivity. constructor.
  - destruct IH as (rest & acts & Hp & Hs & Hs' & Hd & Ha & Hpl).
    destruct (expand_Ok _ _ _ _ He Hc) as (avail & a & s' & Hav & Hin & Hr & ->).
    exists (rest ++ [Node_init s' (Some n) (Some a)
                      (path_cost p (node_path_cost n) (state n) a s')]),
           (acts ++ [a]).
    assert (Hpath : forall x, path (Node_init s' (Some n) (Some a) x)
              = Node_init (initial p) None None 0
                :: (rest ++ [Node_init s' (Some n) (Some a) x])).
    { intros x. by rewrite path_child, Hp. }
    assert (Hsol : forall x, solution (Node_init s' (Some n) (Some a) x)
              = solution n ++ [Some a]).
    { intros x. unfold solution at 1. rewrite Hpath. simpl. rewrite drop_0.
      rewrite fmap_app. simpl. by rewrite <- Hs. }
    split_and!.
    + apply Hpath.
    + rewrite Hsol, Hs. by rewrite fmap_app.
    + rewrite Hsol, Hs'. by rewrite fmap_app.
    + rewrite length_app. simpl. lia.
    + eapply apply_actions_snoc; eauto.
    + eapply plan_snoc; eauto.
Qed.

(** C6. On every node generated from the root by [expand], the length of
    [solution()] is the depth, [solution()] lists the actions of the nodes
    of [path()] after the root, and applying these actions in order to
    [problem.initial] with [problem.result] gives the state of the node. *)
Theorem solution_reconstruction p n :
  generated p n ->
  Z.of_nat (length (solution n)) = depth n
  /\ (exists rest,
        path n = Node_init (initial p) None None 0 :: rest
        /\ solution n = action <$> rest)
  /\ (exists acts,
        solution n = Some <$> acts
        /\ apply_actions p (initial p) acts = Ok (state n)).
Proof.
  intros Hg.
  destruct (generated_spec _ _ Hg) as (rest & acts & Hp & Hs & Hs' & Hd & Ha & _).
  split_and!; eauto.
  rewrite Hs', length_fmap. exact Hd.
Qed.

(** ** Membership in the frontiers *)

Lemma deque_contains_spec (frontier : list (Node State Action)) n :
  deque_contains frontier n = true <-> state n ∈ state <$> frontier.
Proof.
  unfold deque_contains. rewrite existsb_exists, list_elem_of_fmap. split.
  - intros (x & Hx & He). apply bool_decide_eq_true in He.
    exists x. split; [done|]. by apply list_elem_of_In.
  - intros (x & He & Hx). exists x. split; [by apply list_elem_of_In|].
    by apply bool_decide_eq_true.
Qed.

Lemma pq_contains_spec (frontier : list (Z * Node State Action)) n :
  pq_contains frontier n = true
  <-> state n ∈ (fun e => state e.2) <$> frontier.
Proof.
  unfold pq_contains. rewrite existsb_exists, list_elem_of_fmap. split.
  - intros (x & Hx & He). apply bool_decide_eq_true in He.
    exists x. split; [done|]. by apply list_elem_of_In.
  - intros (x & He & Hx). exists x. split; [by apply list_elem_of_In|].
    by apply bool_decide_eq_true.
Qed.

Lemma deque_contains_false (frontier : list (Node State Action)) n :
  deque_contains frontier n = false <-> state n ∉ state <$> frontier.
Proof.
  rewrite <- deque_contains_spec. destruct (deque_contains frontier n); naive_solver.
Qed.

Lemma pq_contains_false (frontier : list (Z * Node State Action)) n :
  pq_contains frontier n = false
  <-> state n ∉ (fun e => state e.2) <$> frontier.
Proof.
  rewrite <- pq_contains_spec. destruct (pq_contains frontier n); naive_solver.
Qed.

(** C7. Two nodes are equal exactly when their states are, whatever their
    parent, action, path cost and depth; the hash of a node is the hash of
    its state; so membership of a node in either frontier depends on its
    state only. *)
Theorem node_identity_by_state (hash : State -> Z) n1 n2 :
  (Node_eq n1 n2 = true <-> state n1 = state n2)
  /\ Node_hash hash n1 = hash (state n1)
  /\ (forall frontier : list (Node State Action),
        deque_contains frontier n1 = true
        <-> state n1 ∈ state <$> frontier)
  /\ (forall frontier : list (Z * Node State Action),
        pq_contains frontier n1 = true
        <-> state n1 ∈ (fun e => state e.2) <$> frontier).
Proof.
  split_and!.
  - unfold Node_eq. apply bool_decide_eq_true.
  - reflexivity.
  - intros frontier. apply deque_contains_spec.
  - intros frontier. apply pq_contains_spec.
Qed.

(** ** The priority frontier *)

Lemma pq_extract_perm (e : Z * Node State Action) q :
  e :: q ≡ₚ (pq_extract state_lt e q).1 :: (pq_extract state_lt e q).2.
Proof.
  revert e. induction q as [|x q IH]; intros e; simpl; [done|].
  destruct (entry_lt _ _ _); simpl; [|done].
  rewrite (IH x). apply Permutation_swap.
Qed.

Lemma pq_pop_perm (q : list (Z * Node State Action)) node q' :
  pq_pop state_lt q = Ok (node, q') ->
  exists v, q ≡ₚ (v, node) :: q'.
Proof.
  destruct q as [|e q]; simpl; [discriminate|].
  intros [= Hn Hq]. subst node q'. exists (pq_extract state_lt e q).1.1.
  rewrite <- surjective_pairing. apply pq_extract_perm.
Qed.

(** [pop] gives an entry of least score. *)
Lemma pq_extract_least (e : Z * Node State Action) q x :
  x ∈ e :: q -> (pq_extract state_lt e q).1.1 <= x.1.
Proof.
  revert e x. induction q as [|y q IH]; intros e x Hx; simpl.
  - apply list_elem_of_singleton in Hx as ->. lia.
  - assert (Hy : forall z, z ∈ y :: q -> (pq_extract state_lt y q).1.1 <= z.1)
      by (intros z; apply IH).
    unfold entry_lt at 1.
    destruct (Z.ltb_spec (pq_extract state_lt y q).1.1 e.1) as [Hlt|Hge]; simpl.
    + apply elem_of_cons in Hx as [->|Hx]; [lia|auto].
    + assert (He : e.1 <= x.1).
      { apply elem_of_cons in Hx as [->|Hx]; [lia|]. specialize (Hy x Hx). lia. }
      destruct (_ && _) eqn:Htie; simpl; [|done].
      apply andb_prop in Htie as [Htie _]. apply andb_prop in Htie as [Htie _].
      apply Z.eqb_eq in Htie.
      apply elem_of_cons in Hx as [->|Hx]; [lia|auto].
Qed.

Lemma pq_pop_least (q : list (Z * Node State Action)) node q' :
  pq_pop state_lt q = Ok (node, q') ->
  exists v, (v, node) ∈ q /\ forall x, x ∈ q -> v <= x.1.
Proof.
  intros Hpop. destruct (pq_pop_perm _ _ _ Hpop) as [v Hperm].
  destruct q as [|e q]; simpl in Hpop; [discriminate|].
  injection Hpop as Hn Hq. exists (pq_extract state_lt e q).1.1. split.
  - rewrite (pq_extract_perm e q), <- Hn, <- surjective_pairing.
    apply list_elem_of_here.
  - intros x Hx. by apply pq_extract_least.
Qed.

Lemma pq_delitem_spec (q : list (Z * Node State Action)) key q' :
  pq_delitem q key = Ok q' ->
  exists q1 e q2,
    q = q1 ++ e :: q2 /\ q' = q1 ++ q2 /\ state e.2 = state key
    /\ pq_getitem q key = Ok e.1.
Proof.
  revert q'. induction q as [|x q IH]; intros q'; simpl; [discriminate|].
  unfold Node_eq. case_bool_decide as Hx.
  - intros [= <-]. by exists [], x, q.
  - intros Hq. apply bind_Ok in Hq as (q'' & Hq'' & [= <-]).
    destruct (IH _ Hq'') as (q1 & e & q2 & -> & -> & He & Hg).
    by exists (x :: q1), e, q2.
Qed.

Lemma pq_getitem_contains (q : list (Z * Node State Action)) key v :
  pq_getitem q key = Ok v -> pq_contains q key = true.
Proof.
  induction q as [|x q IH]; simpl; [discriminate|].
  destruct (Node_eq x.2 key); simpl; auto.
Qed.

Lemma pq_contains_getitem (q : list (Z * Node State Action)) key :
  pq_contains q key = true -> exists v, pq_getitem q key = Ok v.
Proof.
  induction q as [|x q IH]; simpl; [discriminate|].
  destruct (Node_eq x.2 key); simpl; eauto.
Qed.

Lemma pq_contains_delitem (q : list (Z * Node State Action)) key :
  pq_contains q key = true -> exists q', pq_delitem q key = Ok q'.
Proof.
  induction q as [|x q IH]; simpl; [discriminate|].
  destruct (Node_eq x.2 key); simpl; eauto.
  intros Hq. destruct (IH Hq) as [q' ->]. simpl. eauto.
Qed.

(** ** Runs *)

Lemma bfs_steps_S p sl k st :
  bfs_steps p sl (S k) st = bfs_step p sl (bfs_steps p sl k st).
Proof. revert st. induction k as [|k IH]; intros st; [done|]. simpl in *. by rewrite IH. Qed.

Lemma bfs_steps_add p sl j k st :
  bfs_steps p sl (j + k) st = bfs_steps p sl k (bfs_steps p sl j st).
Proof. revert st. induction j as [|j IH]; intros st; simpl; auto. Qed.

Lemma bfs_steps_done p sl k r :
  bfs_steps p sl k (BfsDone r) = BfsDone r.
Proof. induction k; simpl; auto. Qed.

Lemma best_steps_S p f k st :
  best_steps state_lt p f (S k) st
  = best_step state_lt p f (best_steps state_lt p f k st).
Proof. revert st. induction k as [|k IH]; intros st; [done|]. simpl in *. by rewrite IH. Qed.

Lemma best_steps_add p f j k st :
  best_steps state_lt p f (j + k) st
  = best_steps state_lt p f k (best_steps state_lt p f j st).
Proof. revert st. induction j as [|j IH]; intros st; simpl; auto. Qed.

Lemma best_steps_done p f k r :
  best_steps state_lt p f k (BestDone r) = BestDone r.
Proof. induction k; simpl; auto. Qed.

Lemma bfs_fuel_mono p sl fuel fuel' r :
  breadth_first_graph_search fuel p sl = Some r -> (fuel <= fuel')%nat ->
  breadth_first_graph_search fuel' p sl = Some r.
Proof.
  unfold breadth_first_graph_search. intros Hr Hle.
  replace fuel' with (fuel + (fuel' - fuel))%nat by lia.
  rewrite bfs_steps_add.
  destruct (bfs_steps p sl fuel (bfs_init p)); try discriminate.
  by rewrite bfs_steps_done.
Qed.

Lemma best_fuel_mono p f fuel fuel' r :
  best_first_graph_search state_lt fuel p f = Some r -> (fuel <= fuel')%nat ->
  best_first_graph_search state_lt fuel' p f = Some r.
Proof.
  unfold best_first_graph_search, memoize. cbv zeta. intros Hr Hle.
  replace fuel' with (fuel + (fuel' - fuel))%nat by lia.
  rewrite best_steps_add.
  destruct (best_steps state_lt p f fuel (best_init p f)); try discriminate.
  by rewrite best_steps_done.
Qed.

(** ** Duplicate elimination *)

Lemma dedup_pop (s : State) frontier_states explored :
  dedup (s :: frontier_states) explored ->
  dedup frontier_states (explored ∪ {[s]}).
Proof.
  intros [Hnd Hdis]. apply NoDup_cons in Hnd as [Hs Hnd]. split; [done|].
  intros t Ht. rewrite elem_of_union, elem_of_singleton. intros [Hin| ->].
  - eapply Hdis; [|exact Hin]. by apply list_elem_of_further.
  - done.
Qed.

Lemma dedup_append (s : State) frontier_states explored :
  dedup frontier_states explored -> s ∉ frontier_states -> s ∉ explored ->
  dedup (frontier_states ++ [s]) explored.
Proof.
  intros [Hnd Hdis] Hs He. split.
  - apply NoDup_app. split_and!; [done| |apply NoDup_singleton].
    intros t Ht Ht'. apply list_elem_of_singleton in Ht'. by subst.
  - intros t Ht. apply elem_of_app in Ht as [Ht|Ht]; [auto|].
    apply list_elem_of_singleton in Ht. by subst.
Qed.

Lemma dedup_perm (l1 l2 : list State) explored :
  l1 ≡ₚ l2 -> dedup l1 explored -> dedup l2 explored.
Proof.
  intros Hp [Hnd Hdis]. split; [by rewrite <- Hp|].
  intros s Hs. apply Hdis. by rewrite Hp.
Qed.

Lemma bfs_step_dedup p sl st : bfs_dedup st -> bfs_dedup (bfs_step p sl st).
Proof.
  destruct st as [[|node F] E k|[|c cs] F E k|r]; simpl; try done.
  - intros Hd. destruct (_ && _); [done|].
    destruct (expand p node); [|done]. by apply dedup_pop.
  - intros Hd.
    destruct (bool_decide (state c ∉ E)) eqn:HE; simpl; [|done].
    destruct (deque_contains F c) eqn:HF; simpl; [done|].
    destruct (goal_test p (state c)); [done|].
    unfold bfs_dedup; simpl. rewrite fmap_app. simpl.
    apply dedup_append; [done| |].
    + by apply deque_contains_false.
    + by apply bool_decide_eq_true in HE.
Qed.

Lemma bfs_reach_dedup p sl k : bfs_dedup (bfs_steps p sl k (bfs_init p)).
Proof.
  induction k as [|k IH].
  - simpl. unfold bfs_init. destruct (goal_test _ _); [done|].
    split; simpl; [apply NoDup_singleton|set_solver].
  - rewrite bfs_steps_S. by apply bfs_step_dedup.
Qed.

Lemma best_step_dedup p f st :
  best_dedup st -> best_dedup (best_step state_lt p f st).
Proof.
  destruct st as [[|e q] E k|[|c cs] F E k|r]; try done.
  - intros Hd. unfold best_step.
    destruct (pq_pop state_lt (e :: q)) as [[node F]|] eqn:Hpop; [|done].
    destruct (goal_test p (state node)); [done|].
    destruct (expand p node); [|done].
    apply pq_pop_perm in Hpop as [v Hperm].
    unfold best_dedup in *; simpl in *.
    apply (dedup_pop (state node)).
    eapply dedup_perm; [|exact Hd].
    exact (fmap_Permutation (fun e => state e.2) _ _ Hperm).
  - intros Hd. simpl.
    destruct (bool_decide (state c ∉ E)) eqn:HE; simpl.
    + destruct (pq_contains F c) eqn:HF; simpl.
      * destruct (pq_getitem F c) as [f_old|]; [|done].
        destruct (f c <? f_old); [|done].
        destruct (pq_delitem F c) as [F'|] eqn:Hdel; [|done].
        apply pq_delitem_spec in Hdel as (q1 & x & q2 & -> & -> & Hx & _).
        unfold best_dedup in *; simpl in *. unfold pq_append.
        eapply dedup_perm; [|exact Hd].
        rewrite !fmap_app. simpl. rewrite Hx.
        rewrite <- (assoc_L (++)). apply Permutation_app_head.
        apply Permutation_cons_append.
      * unfold best_dedup; simpl. unfold pq_append. rewrite fmap_app. simpl.
        apply dedup_append; [done| |].
        -- by apply pq_contains_false.
        -- by apply bool_decide_eq_true in HE.
    + destruct (pq_contains F c) eqn:HF; simpl; [|done].
      destruct (pq_getitem F c) as [f_old|]; [|done].
      destruct (f c <? f_old); [|done].
      destruct (pq_delitem F c) as [F'|] eqn:Hdel; [|done].
      apply pq_delitem_spec in Hdel as (q1 & x & q2 & -> & -> & Hx & _).
      unfold best_dedup in *; simpl in *. unfold pq_append.
      eapply dedup_perm; [|exact Hd].
      rewrite !fmap_app. simpl. rewrite Hx.
      rewrite <- (assoc_L (++)). apply Permutation_app_head.
      apply Permutation_cons_append.
Qed.

Lemma best_reach_dedup p f k :
  best_dedup (best_steps state_lt p f k (best_init p f)).
Proof.
  induction k as [|k IH].
  - split; simpl; [apply NoDup_singleton|set_solver].
  - rewrite best_steps_S. by apply best_step_dedup.
Qed.

(** C3. In every loop state that either search reaches, no state of a
    frontier node is in the explored set and no two entries of the
    frontier have the same state. *)
Theorem dedup_invariant p sl f k :
  (forall frontier explored,
     bfs_vars (bfs_steps p sl k (bfs_init p)) = Some (frontier, explored) ->
     NoDup (state <$> frontier)
     /\ forall n, n ∈ frontier -> state n ∉ explored)
  /\ (forall frontier explored,
        best_vars (best_steps state_lt p f k (best_init p f))
        = Some (frontier, explored) ->
        NoDup ((fun e => state e.2) <$> frontier)
        /\ forall e, e ∈ frontier -> state e.2 ∉ explored).
Proof.
  split; intros frontier explored Hv.
  - pose proof (bfs_reach_dedup p sl k) as Hd. unfold bfs_dedup in Hd.
    rewrite Hv in Hd. destruct Hd as [Hnd Hdis]. split; [done|].
    intros n Hn. apply Hdis. by apply list_elem_of_fmap_2.
  - pose proof (best_reach_dedup p f k) as Hd. unfold best_dedup in Hd.
    rewrite Hv in Hd. destruct Hd as [Hnd Hdis]. split; [done|].
    intros e He. apply Hdis.
    by apply (list_elem_of_fmap_2 (fun e => state e.2)).
Qed.

(** ** The explored set only grows *)

Lemma bfs_step_explored p sl st F E F' E' :
  bfs_vars st = Some (F, E) ->
  bfs_vars (bfs_step p sl st) = Some (F', E') ->
  E ⊆ E'.
Proof.
  destruct st as [[|node F0] E0 k|[|c cs] F0 E0 k|r]; simpl; try done.
  - intros [= _ <-]. destruct (_ && _); [done|].
    destruct (expand p node); [|done]. simpl. intros [= _ <-].
    apply union_subseteq_l.
  - by intros [= _ <-] [= _ <-].
  - intros [= _ <-]. destruct (_ && _).
    + destruct (goal_test p (state c)); [done|]. by intros [= _ <-].
    + by intros [= _ <-].
Qed.

Lemma bfs_explored_later p sl j k F E F' E' :
  bfs_vars (bfs_steps p sl j (bfs_init p)) = Some (F, E) ->
  bfs_vars (bfs_steps p sl (j + k) (bfs_init p)) = Some (F', E') ->
  E ⊆ E'.
Proof.
  intros Hj. revert F' E'. induction k as [|k IH]; intros F' E'.
  - rewrite Nat.add_0_r, Hj. by intros [= _ <-].
  - rewrite Nat.add_succ_r, bfs_steps_S.
    destruct (bfs_vars (bfs_steps p sl (j + k) (bfs_init p)))
      as [[F1 E1]|] eqn:Hk.
    + intros Hs. etrans; [by eapply IH|]. by eapply bfs_step_explored.
    + destruct (bfs_steps p sl (j + k) (bfs_init p)); done.
Qed.

Lemma best_step_explored p f st F E F' E' :
  best_vars st = Some (F, E) ->
  best_vars (best_step state_lt p f st) = Some (F', E') ->
  E ⊆ E'.
Proof.
  destruct st as [[|e q] E0 k|[|c cs] F0 E0 k|r]; try done.
  - intros [= _ <-]. unfold best_step.
    destruct (pq_pop state_lt (e :: q)) as [[node F1]|]; [|done].
    destruct (goal_test p (state node)); [done|].
    destruct (expand p node); [|done]. simpl. intros [= _ <-].
    apply union_subseteq_l.
  - by intros [= _ <-] [= _ <-].
  - intros [= _ <-]. simpl. destruct (_ && _); [by intros [= _ <-]|].
    destruct (pq_contains F0 c); [|by intros [= _ <-]].
    destruct (pq_getitem F0 c) as [f_old|]; [|done].
    destruct (f c <? f_old); [|by intros [= _ <-]].
    destruct (pq_delitem F0 c); [|done]. by intros [= _ <-].
Qed.

Lemma best_explored_later p f j k F E F' E' :
  best_vars (best_steps state_lt p f j (best_init p f)) = Some (F, E) ->
  best_vars (best_steps state_lt p f (j + k) (best_init p f)) = Some (F', E') ->
  E ⊆ E'.
Proof.
  intros Hj. revert F' E'. induction k as [|k IH]; intros F' E'.
  - rewrite Nat.add_0_r, Hj. by intros [= _ <-].
  - rewrite Nat.add_succ_r, best_steps_S.
    destruct (best_vars (best_steps state_lt p f (j + k) (best_init p f)))
      as [[F1 E1]|] eqn:Hk.
    + intros Hs. etrans; [by eapply IH|]. by eapply best_step_explored.
    + destruct (best_steps state_lt p f (j + k) (best_init p f)); done.
Qed.

(** C5. In both searches a state of the explored set stays in it and is
    in no later frontier, and a child whose state is explored is dropped:
    the step that visits it leaves the frontier and the explored set as
    they are. *)
Theorem explored_never_reinserted p sl f :
  (forall j k F E F' E' s,
     bfs_vars (bfs_steps p sl j (bfs_init p)) = Some (F, E) -> s ∈ E ->
     bfs_vars (bfs_steps p sl (j + k) (bfs_init p)) = Some (F', E') ->
     s ∈ E' /\ s ∉ state <$> F')
  /\ (forall j c cs F E k,
        bfs_steps p sl j (bfs_init p) = BfsFor (c :: cs) F E k ->
        state c ∈ E ->
        bfs_steps p sl (S j) (bfs_init p) = BfsFor cs F E k)
  /\ (forall j k F E F' E' s,
        best_vars (best_steps state_lt p f j (best_init p f)) = Some (F, E) ->
        s ∈ E ->
        best_vars (best_steps state_lt p f (j + k) (best_init p f))
        = Some (F', E') ->
        s ∈ E' /\ s ∉ (fun e => state e.2) <$> F')
  /\ (forall j c cs F E k,
        best_steps state_lt p f j (best_init p f) = BestFor (c :: cs) F E k ->
        state c ∈ E ->
        best_steps state_lt p f (S j) (best_init p f) = BestFor cs F E k).
Proof.
  split_and!.
  - intros j k F E F' E' s Hj Hs Hk.
    assert (s ∈ E') as Hs'.
    { eapply (bfs_explored_later p sl j k F E F' E'); eauto. }
    split; [done|]. intros Hin.
    pose proof (bfs_reach_dedup p sl (j + k)) as Hd. unfold bfs_dedup in Hd.
    rewrite Hk in Hd. destruct Hd as [_ Hdis]. by apply (Hdis s).
  - intros j c cs F E k Hj Hc. rewrite bfs_steps_S, Hj. simpl.
    rewrite bool_decide_eq_false_2; [done|]. by intros Hn.
  - intros j k F E F' E' s Hj Hs Hk.
    assert (s ∈ E') as Hs'.
    { eapply (best_explored_later p f j k F E F' E'); eauto. }
    split; [done|]. intros Hin.
    pose proof (best_reach_dedup p f (j + k)) as Hd. unfold best_dedup in Hd.
    rewrite Hk in Hd. destruct Hd as [_ Hdis]. by apply (Hdis s).
  - intros j c cs F E k Hj Hc. rewrite best_steps_S, Hj. simpl.
    rewrite bool_decide_eq_false_2; [|by intros Hn]. simpl.
    pose proof (best_reach_dedup p f j) as Hd. unfold best_dedup in Hd.
    rewrite Hj in Hd. simpl in Hd. destruct Hd as [_ Hdis].
    rewrite (proj2 (pq_contains_false F c)); [done|].
    intros Hin. by apply (Hdis _ Hin).
Qed.

(** C4. A child of best-first search whose state has an entry in the
    frontier, stored with score [f_old]: when [f child] is strictly lower,
    that entry is removed and the child is stored with its own score, as
    the only entry of its state; otherwise the frontier is unchanged. *)
Theorem frontier_replacement p f j c cs F E k f_old :
  best_steps state_lt p f j (best_init p f) = BestFor (c :: cs) F E k ->
  pq_getitem F c = Ok f_old ->
  (f c < f_old ->
   exists F1 e F2,
     F = F1 ++ e :: F2 /\ state e.2 = state c /\ e.1 = f_old
     /\ (forall x, x ∈ F1 ++ F2 -> state x.2 <> state c)
     /\ best_steps state_lt p f (S j) (best_init p f)
        = BestFor cs (F1 ++ F2 ++ [(f c, c)]) E k)
  /\ (f_old <= f c ->
      best_steps state_lt p f (S j) (best_init p f) = BestFor cs F E k).
Proof.
  intros Hj Hget.
  pose proof (pq_getitem_contains _ _ _ Hget) as Hin.
  assert (Hstep : best_steps state_lt p f (S j) (best_init p f)
    = if f c <? f_old
      then match pq_delitem F c with
           | Raise err => BestDone (Raise err)
           | Ok F' => BestFor cs (pq_append f F' c) E k
           end
      else BestFor cs F E k).
  { rewrite best_steps_S, Hj. simpl. rewrite Hin, Hget. simpl.
    by rewrite andb_false_r. }
  split.
  - intros Hlt. rewrite (proj2 (Z.ltb_lt _ _) Hlt) in Hstep.
    destruct (pq_contains_delitem _ _ Hin) as [F' Hdel].
    rewrite Hdel in Hstep.
    apply pq_delitem_spec in Hdel as (F1 & e & F2 & -> & -> & He & Hg).
    rewrite Hget in Hg. injection Hg as Hg.
    exists F1, e, F2. split_and!; auto.
    + pose proof (best_reach_dedup p f j) as Hd. unfold best_dedup in Hd.
      rewrite Hj in Hd. simpl in Hd. destruct Hd as [Hnd _].
      rewrite fmap_app, fmap_cons in Hnd.
      apply NoDup_app in Hnd as (_ & H1 & H2).
      apply NoDup_cons in H2 as [H2 _].
      intros x Hx Hsx. apply elem_of_app in Hx as [Hx|Hx].
      * apply (H1 (state x.2)).
        -- by apply (list_elem_of_fmap_2 (fun e => state e.2)).
        -- rewrite Hsx, <- He. apply list_elem_of_here.
      * apply H2. rewrite He, <- Hsx.
        by apply (list_elem_of_fmap_2 (fun e => state e.2)).
    + rewrite Hstep. unfold pq_append. by rewrite <- (assoc_L (++)).
  - intros Hle. rewrite (proj2 (Z.ltb_ge _ _) Hle) in Hstep. exact Hstep.
Qed.

(** ** The step limit of breadth-first search *)

Lemma bfs_step_counted p sl st :
  bfs_dedup st -> bfs_counted sl st -> bfs_counted sl (bfs_step p sl st).
Proof.
  destruct st as [[|node F] E k|[|c cs] F E k|r]; simpl; try done.
  - intros [Hnd Hdis] [Hk Hlim].
    destruct (sl >? 0) eqn:Hsl; simpl.
    + destruct (k + 1 >=? sl) eqn:Hge; [done|].
      destruct (expand p node); [|done]. simpl. split; [|lia].
      rewrite size_union, size_singleton; [lia|].
      apply disjoint_singleton_r, Hdis, list_elem_of_here.
    + destruct (expand p node); [|done]. simpl. split; [|lia].
      rewrite size_union, size_singleton; [lia|].
      apply disjoint_singleton_r, Hdis, list_elem_of_here.
  - intros _ Hc. destruct (_ && _); [|done].
    by destruct (goal_test p (state c)).
Qed.

Lemma bfs_reach_counted p sl j :
  bfs_counted sl (bfs_steps p sl j (bfs_init p)).
Proof.
  induction j as [|j IH].
  - cbn [bfs_steps]. unfold bfs_init. destruct (goal_test _ _); [done|].
    cbn [bfs_counted]. split; [by rewrite size_empty|done].
  - rewrite bfs_steps_S. apply bfs_step_counted; [apply bfs_reach_dedup|done].
Qed.

(** ** Breadth-first search returns a shallowest goal *)

Lemma plan_reach p k s acts t :
  reach p k s -> plan p s acts t -> reach p (k + length acts) t.
Proof.
  intros Hk Hp. revert k Hk. induction Hp as [s|s a acts s' t avail Ha Hin Hr Hp IH];
    intros k Hk; simpl.
  - by rewrite Nat.add_0_r.
  - replace (k + S (length acts))%nat with (S k + length acts)%nat by lia.
    apply IH. by eapply reach_step.
Qed.

Lemma expand_complete p n children avail a s' :
  expand p n = Ok children -> actions p (state n) = Ok avail -> a ∈ avail ->
  result p (state n) a = Ok s' ->
  s' ∈ state <$> children.
Proof.
  unfold expand. intros He Hav Hin Hr. rewrite Hav in He. simpl in He.
  apply mapM_Ok in He. apply list_elem_of_lookup in Hin as [i Hi].
  destruct (Forall2_lookup_l _ _ _ _ _ He Hi) as (c & Hc & Hca).
  apply child_node_Ok in Hca as (s'' & Hs'' & ->).
  rewrite Hr in Hs''. injection Hs'' as <-.
  apply list_elem_of_fmap. eexists. split; [|by eapply list_elem_of_lookup_2].
  reflexivity.
Qed.

Lemma expand_depth p n children c :
  expand p n = Ok children -> c ∈ children -> depth c = depth n + 1.
Proof.
  intros He Hc.
  by destruct (expand_Ok _ _ _ _ He Hc) as (avail & a & s' & _ & _ & _ & ->).
Qed.

Lemma layered_pop (d : Z) (h : Node State Action) F :
  layered d (h :: F) -> layered (depth h) F.
Proof.
  intros (Fa & Fb & HF & Ha & Hb). destruct Fa as [|x Fa]; simpl in HF.
  - subst Fb. apply Forall_cons in Hb as [Hh Hb].
    exists F, []. rewrite app_nil_r. split_and!; [done| |done].
    by rewrite Hh.
  - injection HF as <- ->. apply Forall_cons in Ha as [Hh Ha].
    exists Fa, Fb. by rewrite Hh.
Qed.

Lemma layered_append (d : Z) (c : Node State Action) F :
  layered d F -> depth c = d + 1 -> layered d (F ++ [c]).
Proof.
  intros (Fa & Fb & -> & Ha & Hb) Hc. exists Fa, (Fb ++ [c]).
  rewrite (assoc_L (++)). split_and!; [done|done|].
  apply Forall_app. split; [done|]. by constructor.
Qed.

Lemma layered_lower (d : Z) F (m : Node State Action) :
  layered d F -> m ∈ F -> d <= depth m.
Proof.
  intros (Fa & Fb & -> & Ha & Hb) Hm. rewrite Forall_forall in Ha, Hb.
  apply elem_of_app in Hm as [Hm|Hm].
  - rewrite (Ha m); [lia|done].
  - rewrite (Hb m); [lia|done].
Qed.

(** A sequence of actions that leaves the explored states and the
    frontier went through the frontier, or through the node being
    expanded, one step earlier at least. *)
Lemma closure_cut p E F current children :
  closure p E F current children ->
  initial p ∈ E \/ initial p ∈ state <$> F ->
  forall k t, reach p k t ->
    t ∈ E \/ t ∈ state <$> F
    \/ exists j u, (j < k)%nat /\ reach p j u
         /\ (u ∈ state <$> F \/ u = current).
Proof.
  intros Hcl Hinit k t Hr.
  induction Hr as [|k s a s' avail Hr IH Hav Hin Hres].
  - destruct Hinit; auto.
  - destruct IH as [HE|[HF|(j & u & Hj & Hu & Hw)]].
    + destruct (Hcl s avail a s' HE Hav Hin Hres) as [?|[?|[-> _]]]; auto.
      right; right. exists k, current. split_and!; auto.
    + right; right. exists k, s. split_and!; auto.
    + right; right. exists j, u. split_and!; auto.
Qed.

Lemma beyond_frontier p E F node children k t :
  closure p E F (state node) children ->
  initial p ∈ E \/ initial p ∈ state <$> F ->
  shallowest p node -> layered (depth node) F -> Forall (node_ok p) F ->
  reach p k t -> t ∉ E -> t ∉ state <$> F ->
  depth node + 1 <= Z.of_nat k.
Proof.
  intros Hcl Hinit Hsh Hlay Hok Hr HE HF.
  destruct (closure_cut _ _ _ _ _ Hcl Hinit k t Hr)
    as [?|[?|(j & u & Hj & Hu & Hw)]]; [done|done|].
  destruct Hw as [Hw| ->].
  - apply list_elem_of_fmap in Hw as (m & -> & Hm).
    rewrite Forall_forall in Hok.
    destruct (Hok m) as (_ & Hshm & _); [done|].
    pose proof (Hshm j Hu). pose proof (layered_lower _ _ _ Hlay Hm). lia.
  - pose proof (Hsh j Hu). lia.
Qed.

Lemma bfs_step_level p sl st :
  sl <= 0 -> bfs_level_inv p st -> bfs_level_inv p (bfs_step p sl st).
Proof.
  intros Hsl.
  destruct st as [[|node F] E k|[|c cs] F E k|r]; simpl; try done.
  - intros ([d Hlay] & Hok & Hng & Hcl & Hinit).
    destruct (sl >? 0) eqn:Hgt; [apply Z.gtb_gt in Hgt; lia|]. simpl.
    destruct (expand p node) as [children|] eqn:Hex; [|done].
    apply Forall_cons in Hok as [(Hgen & Hsh & Hgoal) Hok].
    exists node. split_and!; try done.
    + apply elem_of_union_r. by apply elem_of_singleton.
    + apply Forall_forall. intros c Hc. split.
      * by eapply generated_child.
      * by eapply expand_depth.
    + by eapply layered_pop.
    + intros s. rewrite elem_of_union, elem_of_singleton. intros [?| ->]; auto.
    + intros s avail a s'. rewrite elem_of_union, elem_of_singleton.
      intros [Hs| ->] Hav Hin Hres.
      * destruct (Hcl s avail a s' Hs Hav Hin Hres) as [?|[HF|[_ HF]]].
        -- left. by apply elem_of_union_l.
        -- rewrite ?fmap_cons in HF. apply elem_of_cons in HF as [->|HF].
           ++ left. apply elem_of_union_r. by apply elem_of_singleton.
           ++ auto.
        -- by apply elem_of_nil in HF.
      * right; right. split; [done|]. by eapply expand_complete.
    + destruct Hinit as [?|HF].
      * left. by apply elem_of_union_l.
      * rewrite ?fmap_cons in HF. apply elem_of_cons in HF as [->|HF]; [|auto].
        left. apply elem_of_union_r. by apply elem_of_singleton.
  - intros (node & Hgen & Hsh & HnE & Hch & Hlay & Hok & Hng & Hcl & Hinit).
    split_and!; eauto.
    intros s avail a s' Hs Hav Hin Hres.
    destruct (Hcl s avail a s' Hs Hav Hin Hres) as [?|[?|[_ HF]]]; auto.
    by apply elem_of_nil in HF.
  - intros (node & Hgen & Hsh & HnE & Hch & Hlay & Hok & Hng & Hcl & Hinit).
    apply Forall_cons in Hch as [[Hcg Hcd] Hch].
    destruct (bool_decide (state c ∉ E)) eqn:HE; simpl.
    + apply bool_decide_eq_true in HE.
      destruct (deque_contains F c) eqn:HF; simpl.
      * apply deque_contains_spec in HF.
        exists node. split_and!; try done.
        intros s avail a s' Hs Hav Hin Hres.
        destruct (Hcl s avail a s' Hs Hav Hin Hres) as [?|[?|[-> Hc]]]; auto.
        rewrite ?fmap_cons in Hc. apply elem_of_cons in Hc as [->|Hc]; auto.
      * apply deque_contains_false in HF.
        assert (Hfar : forall j t, reach p j t -> t ∉ E -> t ∉ state <$> F ->
                  depth c <= Z.of_nat j).
        { intros j t Hr HtE HtF. rewrite Hcd. by eapply beyond_frontier. }
        destruct (goal_test p (state c)) eqn:Hgoal.
        -- split_and!; [done|done|]. intros j t Hr Ht.
           apply (Hfar j t Hr).
           ++ intros HtE. rewrite (Hng t HtE) in Ht. discriminate.
           ++ intros HtF. apply list_elem_of_fmap in HtF as (m & -> & Hm).
              rewrite Forall_forall in Hok.
              destruct (Hok m) as (_ & _ & Hmg); [done|].
              rewrite Hmg in Ht. discriminate.
        -- exists node. split_and!; try done.
           ++ by apply layered_append.
           ++ apply Forall_app. split; [done|]. constructor; [|done].
              split_and!; [done| |done]. intros j Hr. by apply (Hfar j (state c)).
           ++ intros s avail a s' Hs Hav Hin Hres. rewrite fmap_app.
              destruct (Hcl s avail a s' Hs Hav Hin Hres) as [?|[?|[-> Hc]]]; auto.
              ** right; left. by apply elem_of_app; left.
              ** rewrite ?fmap_cons in Hc.
                 apply elem_of_cons in Hc as [->|Hc]; auto.
                 right; left. apply elem_of_app; right. apply list_elem_of_here.
           ++ destruct Hinit; auto. right. rewrite fmap_app.
              by apply elem_of_app; left.
    + apply bool_decide_eq_false in HE. apply dec_stable in HE.
      exists node. split_and!; try done.
      intros s avail a s' Hs Hav Hin Hres.
      destruct (Hcl s avail a s' Hs Hav Hin Hres) as [?|[?|[-> Hc]]]; auto.
      rewrite ?fmap_cons in Hc. apply elem_of_cons in Hc as [->|Hc]; auto.
Qed.

Lemma bfs_reach_level p sl j :
  sl <= 0 -> bfs_level_inv p (bfs_steps p sl j (bfs_init p)).
Proof.
  intros Hsl. induction j as [|j IH].
  - cbn [bfs_steps]. unfold bfs_init. simpl.
    destruct (goal_test p (initial p)) eqn:Hgoal; simpl.
    + split_and!; [constructor|done|]. intros k t _ _. simpl. lia.
    + split_and!.
      * exists 0, [Node_init (initial p) None None 0], []. split_and!; by repeat constructor.
      * constructor; [|done]. split_and!; [constructor| |done].
        intros k _. simpl. lia.
      * intros s Hs. by apply not_elem_of_empty in Hs.
      * intros s avail a s' Hs. by apply not_elem_of_empty in Hs.
      * right. simpl. apply list_elem_of_here.
  - rewrite bfs_steps_S. by apply bfs_step_level.
Qed.

(** C1. When breadth-first search, its step limit off, returns a node,
    the node's [solution()] is a sequence of admissible actions from the
    initial state to a goal state and no such sequence is shorter.  The
    search never reads a path cost, so this holds whatever the step costs
    are, and in particular when they are all equal and positive. *)
Theorem bfs_optimal p sl fuel n :
  sl <= 0 ->
  breadth_first_graph_search fuel p sl = Some (Ok (Some n)) ->
  goal_test p (state n) = true
  /\ exists acts,
       solution n = Some <$> acts
       /\ plan p (initial p) acts (state n)
       /\ forall acts' t,
            plan p (initial p) acts' t -> goal_test p t = true ->
            (length (solution n) <= length acts')%nat.
Proof.
  intros Hsl Hrun. unfold breadth_first_graph_search in Hrun.
  pose proof (bfs_reach_level p sl fuel Hsl) as Hinv.
  destruct (bfs_steps p sl fuel (bfs_init p)) as [| |r]; try discriminate.
  injection Hrun as ->. destruct Hinv as (Hgen & Hgoal & Hmin).
  split; [done|].
  destruct (generated_spec _ _ Hgen) as (rest & acts & _ & _ & Hs & Hd & _ & Hpl).
  exists acts. split_and!; [done|done|].
  intros acts' t Hpl' Ht.
  pose proof (plan_reach p 0 _ _ _ (reach_init p) Hpl') as Hr.
  pose proof (Hmin _ _ Hr Ht) as Hle.
  rewrite Hs, length_fmap. simpl in Hle. lia.
Qed.

(** ** The step limit and what the function returns *)

Lemma bfs_step_limit_off p sl st :
  sl <= 0 -> bfs_step p sl st = bfs_step p (-1) st.
Proof.
  intros Hsl. destruct st as [[|node F] E k|[|c cs] F E k|r]; simpl; try done.
  destruct (sl >? 0) eqn:Hgt; [|done]. apply Z.gtb_gt in Hgt. lia.
Qed.

Lemma bfs_steps_limit_off p sl j st :
  sl <= 0 -> bfs_steps p sl j st = bfs_steps p (-1) j st.
Proof.
  intros Hsl. revert st. induction j as [|j IH]; intros st; [done|]. simpl.
  by rewrite bfs_step_limit_off, IH.
Qed.

(** While [step_num] stays below a positive limit, the search with the
    limit runs as the search without it. *)
Lemma bfs_steps_below_limit p sl j :
  0 < sl ->
  match bfs_steps p (-1) j (bfs_init p) with
  | BfsLoop _ _ k | BfsFor _ _ _ k => k < sl
  | BfsDone _ => False
  end ->
  bfs_steps p sl j (bfs_init p) = bfs_steps p (-1) j (bfs_init p).
Proof.
  intros Hsl. induction j as [|j IH]; [done|].
  rewrite !bfs_steps_S.
  destruct (bfs_steps p (-1) j (bfs_init p))
    as [[|node F] E k|[|c cs] F E k|r] eqn:Hj; simpl.
  - done.
  - destruct (expand p node) as [children|] eqn:Hex; [|done].
    intros Hk. rewrite IH by lia. simpl. rewrite Hex.
    rewrite (proj2 (Z.gtb_gt _ _)) by lia.
    destruct (k + 1 >=? sl) eqn:Hge; [|done]. apply Z.geb_le in Hge. lia.
  - intros Hk. by rewrite IH.
  - destruct (bool_decide (state c ∉ E) && negb (deque_contains F c)) eqn:Hb.
    + destruct (goal_test p (state c)) eqn:Hg; [done|].
      intros Hk. rewrite IH by done. simpl. by rewrite Hb, Hg.
    + intros Hk. rewrite IH by done. simpl. by rewrite Hb.
  - done.
Qed.

Lemma bfs_returns_after p sl j r fuel :
  bfs_steps p sl (S j) (bfs_init p) = BfsDone r -> (j < fuel)%nat ->
  breadth_first_graph_search fuel p sl = Some r.
Proof.
  intros Hj Hfuel. unfold breadth_first_graph_search.
  replace fuel with (S j + (fuel - S j))%nat by lia.
  by rewrite bfs_steps_add, Hj, bfs_steps_done.
Qed.

(** C9. [step_num] counts the iterations of the loop, the one in progress
    included, so at the head of an iteration it is the number of nodes
    expanded so far.  With a positive limit [sl]: an iteration entered
    with fewer than [sl - 1] nodes expanded expands the node it pops; the
    iteration entered with exactly [sl - 1] nodes expanded makes
    [breadth_first_graph_search] return the node it pops, whatever
    [goal_test] says of it; this node is the one the search without limit
    pops in its [sl]-th iteration; no iteration is entered with more.
    With a limit that is not positive every iteration expands the node it
    pops, the function returns what it returns with the default [-1], and
    a node it returns passes [goal_test]. *)
Theorem step_limit_early_return p sl :
  (0 < sl ->
   (forall j node F E k,
      bfs_steps p sl j (bfs_init p) = BfsLoop (node :: F) E k ->
      k = Z.of_nat (size E) /\ k + 1 <= sl
      /\ (k + 1 < sl ->
          bfs_steps p sl (S j) (bfs_init p) = bfs_expansion p node F E k)
      /\ (k + 1 = sl ->
          Z.of_nat (size E) = sl - 1
          /\ forall fuel, (j < fuel)%nat ->
               breadth_first_graph_search fuel p sl = Some (Ok (Some node))))
   /\ (forall j node F E,
         bfs_steps p (-1) j (bfs_init p) = BfsLoop (node :: F) E (sl - 1) ->
         forall fuel, (j < fuel)%nat ->
           breadth_first_graph_search fuel p sl = Some (Ok (Some node))))
  /\ (sl <= 0 ->
      (forall j node F E k,
         bfs_steps p sl j (bfs_init p) = BfsLoop (node :: F) E k ->
         k = Z.of_nat (size E)
         /\ bfs_steps p sl (S j) (bfs_init p) = bfs_expansion p node F E k)
      /\ (forall fuel,
            breadth_first_graph_search fuel p sl
            = breadth_first_graph_search fuel p (-1))
      /\ (forall fuel n,
            breadth_first_graph_search fuel p sl = Some (Ok (Some n)) ->
            goal_test p (state n) = true)).
Proof.
  assert (Hret : forall j node F E k,
            0 < sl -> k + 1 = sl ->
            bfs_steps p sl j (bfs_init p) = BfsLoop (node :: F) E k ->
            forall fuel, (j < fuel)%nat ->
              breadth_first_graph_search fuel p sl = Some (Ok (Some node))).
  { intros j node F E k Hsl Hk Hj fuel Hfuel.
    apply (bfs_returns_after p sl j); [|done].
    rewrite bfs_steps_S, Hj. simpl.
    rewrite (proj2 (Z.gtb_gt _ _)) by lia.
    by rewrite (proj2 (Z.geb_le _ _)) by lia. }
  split.
  - intros Hsl. split.
    + intros j node F E k Hj.
      pose proof (bfs_reach_counted p sl j) as Hc. rewrite Hj in Hc.
      destruct Hc as [Hk Hlim]. specialize (Hlim Hsl).
      split_and!; [done|lia| |].
      * intros Hlt. rewrite bfs_steps_S, Hj. unfold bfs_expansion. simpl.
        rewrite (proj2 (Z.gtb_gt _ _)) by lia.
        destruct (k + 1 >=? sl) eqn:Hge; [|done]. apply Z.geb_le in Hge. lia.
      * intros Heq. split; [lia|]. by eapply Hret.
    + intros j node F E Hj.
      apply (Hret j node F E (sl - 1)); [done|lia|].
      rewrite bfs_steps_below_limit; [done|done|]. rewrite Hj. lia.
  - intros Hsl. split_and!.
    + intros j node F E k Hj.
      pose proof (bfs_reach_counted p sl j) as Hc. rewrite Hj in Hc.
      destruct Hc as [Hk _]. split; [done|].
      rewrite bfs_steps_S, Hj. unfold bfs_expansion. simpl.
      destruct (sl >? 0) eqn:Hgt; [|done]. apply Z.gtb_gt in Hgt. lia.
    + intros fuel. unfold breadth_first_graph_search.
      by rewrite bfs_steps_limit_off.
    + intros fuel n. unfold breadth_first_graph_search. intros Hrun.
      pose proof (bfs_reach_level p sl fuel Hsl) as Hinv.
      destruct (bfs_steps p sl fuel (bfs_init p)) as [| |r]; try discriminate.
      injection Hrun as ->. by destruct Hinv as (_ & Hgoal & _).
Qed.

(** ** Termination on a finite state space without a goal *)

Lemma mapM_total {A B : Type} (f : A -> outcome B) (P : B -> Prop)
    (l : list A) :
  (forall a, a ∈ l -> exists b, f a = Ok b /\ P b) ->
  exists k, mapM f l = Ok k /\ Forall P k.
Proof.
  induction l as [|a l IH]; intros Hl; simpl.
  - by exists [].
  - destruct (Hl a) as (b & Hb & HP); [apply list_elem_of_here|].
    destruct IH as (k & Hk & HPk).
    { intros a' Ha'. apply Hl. by apply list_elem_of_further. }
    exists (b :: k). rewrite Hb. simpl. rewrite Hk. simpl. by split; [|constructor].
Qed.

Section Finite.

Variables (p : Problem State Action) (U : gset State).

Hypothesis initial_in : initial p ∈ U.
Hypothesis closed : forall s, s ∈ U ->
  exists avail, actions p s = Ok avail
    /\ forall a, a ∈ avail -> exists s', result p s a = Ok s' /\ s' ∈ U.
Hypothesis no_goal : forall s, s ∈ U -> goal_test p s = false.

Lemma expand_within n :
  state n ∈ U ->
  exists children,
    expand p n = Ok children /\ Forall (fun c => state c ∈ U) children.
Proof.
  intros Hn. destruct (closed _ Hn) as (avail & Hav & Hres).
  unfold expand. rewrite Hav. simpl. apply mapM_total.
  intros a Ha. destruct (Hres a Ha) as (s' & Hs' & HU).
  unfold child_node. rewrite Hs'. simpl. eauto.
Qed.

Lemma bfs_step_within sl st :
  bfs_within U st -> bfs_within U (bfs_step p sl st).
Proof.
  destruct st as [[|node F] E k|[|c cs] F E k|r]; simpl; try done.
  - intros HF. apply Forall_cons in HF as [Hn HF].
    destruct (_ && _); [done|].
    destruct (expand_within node Hn) as (children & -> & Hc). by simpl.
  - by intros [HF _].
  - intros [HF Hc]. apply Forall_cons in Hc as [Hc Hcs].
    destruct (_ && _); [|done].
    destruct (goal_test p (state c)); [done|]. simpl. split; [|done].
    apply Forall_app. split; [done|]. by constructor.
Qed.

Lemma bfs_steps_within sl m st :
  bfs_dedup st -> bfs_within U st ->
  bfs_dedup (bfs_steps p sl m st) /\ bfs_within U (bfs_steps p sl m st).
Proof.
  revert st. induction m as [|m IH]; intros st Hd Hw; [done|]. simpl.
  apply IH; [by apply bfs_step_dedup|by apply bfs_step_within].
Qed.

Lemma bfs_for_runs sl cs F E k :
  Forall (fun c => state c ∈ U) cs ->
  exists m F', bfs_steps p sl m (BfsFor cs F E k) = BfsLoop F' E k.
Proof.
  revert F. induction cs as [|c cs IH]; intros F Hcs.
  - by exists 1%nat, F.
  - apply Forall_cons in Hcs as [Hc Hcs].
    destruct (bool_decide (state c ∉ E) && negb (deque_contains F c)) eqn:Hb.
    + destruct (IH (F ++ [c]) Hcs) as (m & F' & Hm). exists (S m), F'.
      simpl. by rewrite Hb, (no_goal _ Hc).
    + destruct (IH F Hcs) as (m & F' & Hm). exists (S m), F'.
      simpl. by rewrite Hb.
Qed.

Lemma size_explore (E : gset State) (s : State) :
  s ∈ U -> s ∉ E -> (size (U ∖ (E ∪ {[s]})) < size (U ∖ E))%nat.
Proof.
  intros HU HE. apply subset_size. apply strict_spec_alt. split.
  - intros t. rewrite !elem_of_difference, elem_of_union.
    intros [Ht Hn]. split; [done|]. intros HtE. apply Hn. by left.
  - intros Heq. assert (s ∈ U ∖ E) as Hs by (by apply elem_of_difference).
    rewrite <- Heq in Hs. apply elem_of_difference in Hs as [_ Hs].
    apply Hs, elem_of_union_r. by apply elem_of_singleton.
Qed.

Lemma bfs_loop_terminates sl N F E k :
  sl <= 0 -> (size (U ∖ E) < N)%nat ->
  bfs_dedup (BfsLoop F E k) -> bfs_within U (BfsLoop F E k) ->
  exists m, bfs_steps p sl m (BfsLoop F E k) = BfsDone (Ok None).
Proof.
  intros Hsl. revert F E k.
  induction N as [|N IH]; intros F E k HN Hd Hw; [lia|].
  destruct F as [|node F]; [by exists 1%nat|].
  pose proof Hw as Hw0. apply Forall_cons in Hw0 as [Hn _].
  destruct (expand_within node Hn) as (children & Hex & Hch).
  assert (Hstep : bfs_step p sl (BfsLoop (node :: F) E k)
                  = BfsFor children F (E ∪ {[state node]}) (k + 1)).
  { simpl. rewrite Hex. destruct (sl >? 0) eqn:Hgt; [|done].
    apply Z.gtb_gt in Hgt. lia. }
  destruct (bfs_for_runs sl children F (E ∪ {[state node]}) (k + 1) Hch)
    as (m1 & F' & Hm1).
  destruct (bfs_steps_within sl (S m1) _ Hd Hw) as [Hd' Hw'].
  cbn [bfs_steps] in Hd', Hw'. rewrite Hstep, Hm1 in Hd', Hw'.
  destruct (IH F' (E ∪ {[state node]}) (k + 1)) as [m2 Hm2]; [|done|done|].
  - assert (state node ∉ E) as HnE.
    { destruct Hd as [_ Hdis]. apply Hdis. simpl. apply list_elem_of_here. }
    pose proof (size_explore E (state node) Hn HnE). lia.
  - exists (S m1 + m2)%nat. rewrite bfs_steps_add. cbn [bfs_steps].
    by rewrite Hstep, Hm1.
Qed.

Lemma bfs_terminates sl :
  sl <= 0 ->
  exists m, bfs_steps p sl m (bfs_init p) = BfsDone (Ok None).
Proof.
  intros Hsl. unfold bfs_init. simpl. rewrite (no_goal _ initial_in).
  apply (bfs_loop_terminates sl (S (size (U ∖ ∅)))); [done|lia| |].
  - split; simpl; [apply NoDup_singleton|]. intros s _. apply not_elem_of_empty.
  - simpl. by constructor.
Qed.

Lemma best_step_within f st :
  best_within U st -> best_within U (best_step state_lt p f st).
Proof.
  destruct st as [[|e q] E k|[|c cs] F E k|r]; try done.
  - intros HF. unfold best_step.
    destruct (pq_pop state_lt (e :: q)) as [[node F]|] eqn:Hpop; [|done].
    apply pq_pop_perm in Hpop as [v Hperm].
    simpl in HF. setoid_rewrite Hperm in HF.
    apply Forall_cons in HF as [Hn HF].
    destruct (goal_test p (state node)); [done|].
    destruct (expand_within node Hn) as (children & -> & Hc). by simpl.
  - by intros [HF _].
  - intros [HF Hc]. apply Forall_cons in Hc as [Hc Hcs]. simpl.
    assert (Hrepl : forall F', pq_delitem F c = Ok F' ->
              Forall (fun e => state e.2 ∈ U) (pq_append f F' c)).
    { intros F' Hdel.
      apply pq_delitem_spec in Hdel as (q1 & x & q2 & -> & -> & _).
      apply Forall_app in HF as [H1 H2]. apply Forall_cons in H2 as [_ H2].
      unfold pq_append. rewrite !Forall_app. split_and!; [done|done|].
      by constructor. }
    destruct (_ && _).
    + simpl. split; [|done]. unfold pq_append. apply Forall_app.
      split; [done|]. by constructor.
    + destruct (pq_contains F c); [|done].
      destruct (pq_getitem F c) as [f_old|]; [|done].
      destruct (f c <? f_old); [|done].
      destruct (pq_delitem F c) as [F'|]; [|done]. simpl. auto.
Qed.

Lemma best_steps_within f m st :
  best_dedup st -> best_within U st ->
  best_dedup (best_steps state_lt p f m st)
  /\ best_within U (best_steps state_lt p f m st).
Proof.
  revert st. induction m as [|m IH]; intros st Hd Hw; [done|]. simpl.
  apply IH; [by apply best_step_dedup|by apply best_step_within].
Qed.

Lemma best_for_runs f cs F E k :
  exists m F', best_steps state_lt p f m (BestFor cs F E k) = BestLoop F' E k.
Proof.
  revert F. induction cs as [|c cs IH]; intros F.
  - by exists 1%nat, F.
  - assert (Hnext : exists F1,
      best_step state_lt p f (BestFor (c :: cs) F E k) = BestFor cs F1 E k).
    { simpl. destruct (_ && _); [eauto|].
      destruct (pq_contains F c) eqn:Hin; [|eauto].
      destruct (pq_contains_getitem _ _ Hin) as [f_old ->].
      destruct (f c <? f_old); [|eauto].
      destruct (pq_contains_delitem _ _ Hin) as [F' ->]. eauto. }
    destruct Hnext as [F1 H1]. destruct (IH F1) as (m & F' & Hm).
    exists (S m), F'. simpl in *. by rewrite H1.
Qed.

Lemma best_loop_terminates f N F E k :
  (size (U ∖ E) < N)%nat ->
  best_dedup (BestLoop F E k) -> best_within U (BestLoop F E k) ->
  exists m, best_steps state_lt p f m (BestLoop F E k) = BestDone (Ok None).
Proof.
  revert F E k.
  induction N as [|N IH]; intros F E k HN Hd Hw; [lia|].
  destruct F as [|e q]; [by exists 1%nat|].
  destruct (pq_pop state_lt (e :: q)) as [[node F1]|] eqn:Hpop; [|done].
  destruct (pq_pop_perm _ _ _ Hpop) as [v Hperm].
  assert (Hn : state node ∈ U).
  { simpl in Hw. setoid_rewrite Hperm in Hw. by apply Forall_cons in Hw as [? _]. }
  assert (HnE : state node ∉ E).
  { destruct Hd as [_ Hdis]. apply Hdis.
    change (state node) with ((fun e : Z * Node State Action => state e.2) (v, node)).
    apply list_elem_of_fmap_2. rewrite Hperm. apply list_elem_of_here. }
  destruct (expand_within node Hn) as (children & Hex & Hch).
  assert (Hstep : best_step state_lt p f (BestLoop (e :: q) E k)
                  = BestFor children F1 (E ∪ {[state node]}) (k + 1)).
  { unfold best_step. by rewrite Hpop, (no_goal _ Hn), Hex. }
  destruct (best_for_runs f children F1 (E ∪ {[state node]}) (k + 1))
    as (m1 & F' & Hm1).
  destruct (best_steps_within f (S m1) _ Hd Hw) as [Hd' Hw'].
  cbn [best_steps] in Hd', Hw'. rewrite Hstep, Hm1 in Hd', Hw'.
  destruct (IH F' (E ∪ {[state node]}) (k + 1)) as [m2 Hm2]; [|done|done|].
  - pose proof (size_explore E (state node) Hn HnE). lia.
  - exists (S m1 + m2)%nat. rewrite best_steps_add. cbn [best_steps].
    by rewrite Hstep, Hm1.
Qed.

Lemma best_terminates f :
  exists m, best_steps state_lt p f m (best_init p f) = BestDone (Ok None).
Proof.
  apply (best_loop_terminates f (S (size (U ∖ ∅)))); [lia| |].
  - split; simpl; [apply NoDup_singleton|]. intros s _. apply not_elem_of_empty.
  - simpl. by constructor.
Qed.

(** C8. On a problem whose states lie in a finite set that holds the
    initial state, is closed under the actions and holds no goal, both
    searches return, and what they return is [None]: with enough fuel the
    result is [Ok None], not a raise.  For breadth-first search the step
    limit is off. *)
Theorem unreachable_goal_returns_None (f : Node State Action -> Z) (sl : Z) :
  sl <= 0 ->
  exists fuel0, forall fuel, (fuel0 <= fuel)%nat ->
    breadth_first_graph_search fuel p sl = Some (Ok None)
    /\ best_first_graph_search state_lt fuel p f = Some (Ok None).
Proof.
  intros Hsl. destruct (bfs_terminates sl Hsl) as [m1 H1].
  destruct (best_terminates f) as [m2 H2].
  exists (m1 + m2)%nat. intros fuel Hfuel. split.
  - unfold breadth_first_graph_search.
    replace fuel with (m1 + (fuel - m1))%nat by lia.
    by rewrite bfs_steps_add, H1, bfs_steps_done.
  - unfold best_first_graph_search, memoize. cbv zeta.
    replace fuel with (m2 + (fuel - m2))%nat by lia.
    by rewrite best_steps_add, H2, best_steps_done.
Qed.

End Finite.

End SearchFacts.

(** ** The maze *)

(** [MazePuzzle.actions] lists moves that [MazePuzzle.result] knows, so
    the result of an action of a state is a state. *)
Lemma MazePuzzle_actions_known self st acts a :
  MazePuzzle_actions self st = Ok acts -> a ∈ acts ->
  exists st', MazePuzzle_result st a = Some st'.
Proof.
  destruct st as [x y]. unfold MazePuzzle_actions. intros Hact.
  apply bind_Ok in Hact as (up & _ & Hact).
  apply bind_Ok in Hact as (down & _ & Hact).
  apply bind_Ok in Hact as (left & _ & Hact).
  apply bind_Ok in Hact as (right & _ & Hact).
  injection Hact as <-. intros Hin.
  destruct up, down, left, right; simpl in Hin;
    repeat (apply elem_of_cons in Hin as [-> | Hin]);
    try (by apply elem_of_nil in Hin); eexists; reflexivity.
Qed.

(** C10. [MazePuzzle.result] returns for every state and every action:
    the four moves give the neighbouring coordinate, whatever the grid
    holds there and wherever the state lies, and any other action gives
    [None]. *)
Theorem maze_result_total (x y : Z) (a : string) :
  MazePuzzle_result (x, y) "UP" = Some (x - 1, y)
  /\ MazePuzzle_result (x, y) "DOWN" = Some (x + 1, y)
  /\ MazePuzzle_result (x, y) "LEFT" = Some (x, y - 1)
  /\ MazePuzzle_result (x, y) "RIGHT" = Some (x, y + 1)
  /\ (a ∉ ["UP"; "DOWN"; "LEFT"; "RIGHT"]%string ->
      MazePuzzle_result (x, y) a = None).
Proof.
  split_and!; try reflexivity.
  intros Ha. unfold MazePuzzle_result.
  repeat case_bool_decide; subst; try done; exfalso; apply Ha;
    repeat first [apply list_elem_of_here | apply list_elem_of_further].
Qed.

Lemma maze_result_total_witness :
  ("JUMP"%string ∉ ["UP"; "DOWN"; "LEFT"; "RIGHT"]%string)
  /\ MazePuzzle_result (3, -7) "JUMP" = None.
Proof.
  assert (Hn : "JUMP"%string ∉ ["UP"; "DOWN"; "LEFT"; "RIGHT"]%string).
  { apply (bool_decide_unpack _). vm_compute. exact I. }
  split; [exact Hn|].
  exact (proj2 (proj2 (proj2 (proj2 (maze_result_total 3 (-7) "JUMP")))) Hn).
Defined.

(** C2. On the 5x5 maze of the driver, from (0,0) to (4,4), breadth-first
    search and best-first search scored by [h] each return a node whose
    [solution()] has 8 actions and walks from (0,0) to (4,4) through cells
    of the grid that hold ['.']. *)
Theorem maze_end_to_end :
  (exists n acts,
     (forall fuel, (70 <= fuel)%nat ->
        breadth_first_graph_search fuel (MazePuzzle_problem puzzle) (-1)
        = Some (Ok (Some n)))
     /\ solution n = Some <$> acts
     /\ length acts = 8%nat
     /\ cell_passable maze (0, 0) = true
     /\ maze_walk maze (0, 0) acts = Some (4, 4))
  /\ (exists n acts,
        (forall fuel, (61 <= fuel)%nat ->
           best_first_graph_search tuple_lt fuel (MazePuzzle_problem puzzle)
             (MazePuzzle_h puzzle)
           = Some (Ok (Some n)))
        /\ solution n = Some <$> acts
        /\ length acts = 8%nat
        /\ cell_passable maze (0, 0) = true
        /\ maze_walk maze (0, 0) acts = Some (4, 4)).
Proof.
  split.
  - eexists.
    exists ["DOWN"; "RIGHT"; "DOWN"; "DOWN"; "RIGHT"; "DOWN"; "RIGHT"; "RIGHT"]%string.
    split_and!.
    + intros fuel Hfuel. eapply bfs_fuel_mono; [|exact Hfuel].
      vm_compute. reflexivity.
    + vm_compute. reflexivity.
    + reflexivity.
    + vm_compute. reflexivity.
    + vm_compute. reflexivity.
  - eexists.
    exists ["RIGHT"; "DOWN"; "DOWN"; "DOWN"; "RIGHT"; "DOWN"; "RIGHT"; "RIGHT"]%string.
    split_and!.
    + intros fuel Hfuel. eapply best_fuel_mono; [|exact Hfuel].
      vm_compute. reflexivity.
    + vm_compute. reflexivity.
    + reflexivity.
    + vm_compute. reflexivity.
    + vm_compute. reflexivity.
Qed.

(** ** The properties on instances *)

Lemma bfs_optimal_witness :
  exists n,
    -1 <= 0
    /\ breadth_first_graph_search 70 (MazePuzzle_problem puzzle) (-1)
       = Some (Ok (Some n))
    /\ goal_test (MazePuzzle_problem puzzle) (state n) = true
    /\ exists acts,
         solution n = Some <$> acts
         /\ plan (MazePuzzle_problem puzzle) (0, 0) acts (state n)
         /\ forall acts' t,
              plan (MazePuzzle_problem puzzle) (0, 0) acts' t ->
              goal_test (MazePuzzle_problem puzzle) t = true ->
              (length (solution n) <= length acts')%nat.
Proof.
  eexists. split; [lia|]. split; [vm_compute; reflexivity|].
  apply (bfs_optimal (MazePuzzle_problem puzzle) (-1) 70); [lia|].
  vm_compute. reflexivity.
Defined.

Lemma dedup_invariant_witness :
  (exists F E,
     bfs_vars (bfs_steps (MazePuzzle_problem puzzle) (-1) 7
                 (bfs_init (MazePuzzle_problem puzzle))) = Some (F, E)
     /\ NoDup (state <$> F)
     /\ forall n, n ∈ F -> state n ∉ E)
  /\ (exists F E,
        best_vars (best_steps tuple_lt (MazePuzzle_problem puzzle)
                     (MazePuzzle_h puzzle) 7
                     (best_init (MazePuzzle_problem puzzle)
                        (MazePuzzle_h puzzle))) = Some (F, E)
        /\ NoDup ((fun e => state e.2) <$> F)
        /\ forall e, e ∈ F -> state e.2 ∉ E).
Proof.
  split; do 2 eexists.
  - split; [vm_compute; reflexivity|].
    apply (proj1 (dedup_invariant tuple_lt (MazePuzzle_problem puzzle) (-1)
                    (MazePuzzle_h puzzle) 7)).
    vm_compute. reflexivity.
  - split; [vm_compute; reflexivity|].
    apply (proj2 (dedup_invariant tuple_lt (MazePuzzle_problem puzzle) (-1)
                    (MazePuzzle_h puzzle) 7)).
    vm_compute. reflexivity.
Defined.

Lemma frontier_replacement_witness :
  exists c cs F E k f_old,
    best_steps tuple_lt (MazePuzzle_problem puzzle) deepest_first 15
      (best_init (MazePuzzle_problem puzzle) deepest_first)
    = BestFor (c :: cs) F E k
    /\ pq_getitem F c = Ok f_old
    /\ deepest_first c < f_old
    /\ exists F1 e F2,
         F = F1 ++ e :: F2 /\ state e.2 = state c /\ e.1 = f_old
         /\ (forall x, x ∈ F1 ++ F2 -> state x.2 <> state c)
         /\ best_steps tuple_lt (MazePuzzle_problem puzzle) deepest_first 16
              (best_init (MazePuzzle_problem puzzle) deepest_first)
            = BestFor cs (F1 ++ F2 ++ [(deepest_first c, c)]) E k.
Proof.
  do 6 eexists. split; [vm_compute; reflexivity|].
  split; [vm_compute; reflexivity|].
  assert (Hlt : -4 < -2) by lia. split; [exact Hlt|].
  edestruct (frontier_replacement tuple_lt (MazePuzzle_problem puzzle)
               deepest_first 15) as [Hrep _];
    [vm_compute; reflexivity|vm_compute; reflexivity|].
  exact (Hrep Hlt).
Defined.

Lemma explored_never_reinserted_witness :
  exists F E F' E',
    bfs_vars (bfs_steps (MazePuzzle_problem puzzle) (-1) 7
                (bfs_init (MazePuzzle_problem puzzle))) = Some (F, E)
    /\ (1, 0) ∈ E
    /\ bfs_vars (bfs_steps (MazePuzzle_problem puzzle) (-1) (7 + 20)
                   (bfs_init (MazePuzzle_problem puzzle))) = Some (F', E')
    /\ (1, 0) ∈ E' /\ (1, 0) ∉ state <$> F'.
Proof.
  assert (Hin : (1, 0) ∈ ({[ (0, 0); (1, 0) ]} : gset (Z * Z))).
  { apply elem_of_union_r. by apply elem_of_singleton. }
  eexists _, {[ (0, 0); (1, 0) ]}, _, _.
  split; [vm_compute; reflexivity|].
  split; [exact Hin|]. split; [vm_compute; reflexivity|].
  eapply (proj1 (explored_never_reinserted tuple_lt (MazePuzzle_problem puzzle)
                   (-1) (MazePuzzle_h puzzle)) 7%nat 20%nat);
    [vm_compute; reflexivity|exact Hin|vm_compute; reflexivity].
Defined.

Lemma solution_reconstruction_witness :
  generated (MazePuzzle_problem puzzle) first_child
  /\ Z.of_nat (length (solution first_child)) = depth first_child
  /\ (exists rest,
        path first_child = Node_init (0, 0) None None 0 :: rest
        /\ solution first_child = action <$> rest)
  /\ (exists acts,
        solution first_child = Some <$> acts
        /\ apply_actions (MazePuzzle_problem puzzle) (0, 0) acts
           = Ok (state first_child)).
Proof.
  assert (Hg : generated (MazePuzzle_problem puzzle) first_child).
  { eapply generated_child.
    - apply generated_root.
    - vm_compute. reflexivity.
    - apply list_elem_of_here. }
  split; [exact Hg|].
  exact (solution_reconstruction (MazePuzzle_problem puzzle) first_child Hg).
Defined.

Lemma corridor_closed (s : Z * Z) :
  s ∈ ({[ (0, 0); (0, 1) ]} : gset (Z * Z)) ->
  exists avail,
    actions (MazePuzzle_problem corridor) s = Ok avail
    /\ forall a, a ∈ avail ->
         exists s', result (MazePuzzle_problem corridor) s a = Ok s'
           /\ s' ∈ ({[ (0, 0); (0, 1) ]} : gset (Z * Z)).
Proof.
  rewrite elem_of_union, !elem_of_singleton. intros [-> | ->].
  - exists ["RIGHT"%string]. split; [reflexivity|].
    intros a ->%list_elem_of_singleton. exists (0, 1). split; [reflexivity|].
    apply elem_of_union_r. by apply elem_of_singleton.
  - exists ["LEFT"%string]. split; [reflexivity|].
    intros a ->%list_elem_of_singleton. exists (0, 0). split; [reflexivity|].
    apply elem_of_union_l. by apply elem_of_singleton.
Defined.

Lemma corridor_no_goal (s : Z * Z) :
  s ∈ ({[ (0, 0); (0, 1) ]} : gset (Z * Z)) ->
  goal_test (MazePuzzle_problem corridor) s = false.
Proof.
  rewrite elem_of_union, !elem_of_singleton. by intros [-> | ->].
Defined.

Lemma unreachable_goal_returns_None_witness :
  exists fuel0, forall fuel, (fuel0 <= fuel)%nat ->
    breadth_first_graph_search fuel (MazePuzzle_problem corridor) (-1)
    = Some (Ok None)
    /\ best_first_graph_search tuple_lt fuel (MazePuzzle_problem corridor)
         (MazePuzzle_h corridor)
       = Some (Ok None).
Proof.
  apply (unreachable_goal_returns_None tuple_lt (MazePuzzle_problem corridor)
           {[ (0, 0); (0, 1) ]}).
  - apply elem_of_union_l. by apply elem_of_singleton.
  - exact corridor_closed.
  - exact corridor_no_goal.
  - lia.
Defined.

Lemma step_limit_early_return_witness :
  0 < 2
  /\ exists node F E,
       bfs_steps (MazePuzzle_problem puzzle) 2 4
         (bfs_init (MazePuzzle_problem puzzle)) = BfsLoop (node :: F) E 1
       /\ bfs_steps (MazePuzzle_problem puzzle) (-1) 4
            (bfs_init (MazePuzzle_problem puzzle))
          = BfsLoop (node :: F) E (2 - 1)
       /\ state node = (1, 0)
       /\ goal_test (MazePuzzle_problem puzzle) (state node) = false
       /\ 1 + 1 = 2
       /\ Z.of_nat (size E) = 2 - 1
       /\ (forall fuel, (4 < fuel)%nat ->
             breadth_first_graph_search fuel (MazePuzzle_problem puzzle) 2
             = Some (Ok (Some node)))
       /\ breadth_first_graph_search 5 (MazePuzzle_problem puzzle) 2
          = Some (Ok (Some node)).
Proof.
  assert (Hsl : 0 < 2) by lia. split; [exact Hsl|].
  do 3 eexists. split; [vm_compute; reflexivity|].
  split; [vm_compute; reflexivity|].
  split; [reflexivity|]. split; [reflexivity|].
  assert (Hk : 1 + 1 = 2) by lia. split; [exact Hk|].
  destruct (proj1 (step_limit_early_return (MazePuzzle_problem puzzle) 2) Hsl)
    as [Hlim Hfree].
  edestruct (Hlim 4%nat) as (_ & _ & _ & Hret); [vm_compute; reflexivity|].
  destruct (Hret Hk) as [Hcount Hfun].
  split; [exact Hcount|]. split; [exact Hfun|].
  eapply (Hfree 4%nat); [vm_compute; reflexivity|lia].
Defined.

(** * Further properties *)

Section SearchMore.

Context {State Action : Type} `{Countable State}.
Variable state_lt : State -> State -> bool.

Implicit Types (p : Problem State Action) (n c : Node State Action).

(** ** Nodes *)

Lemma expand_Ok_all p n children :
  expand p n = Ok children ->
  exists avail,
    actions p (state n) = Ok avail
    /\ Forall2 (fun a c => child_node p n a = Ok c) avail children.
Proof.
  unfold expand. intros He. apply bind_Ok in He as (avail & Hav & He).
  apply mapM_Ok in He. eauto.
Qed.

(** X1. [expand] returns one child for each action of the node's state,
    in the order of the actions: the child's state is the result of the
    action, its parent is the node, its action is the action, its depth is
    one more and its path cost is what [problem.path_cost] gives. *)
Theorem expand_children p n children :
  expand p n = Ok children ->
  exists avail,
    actions p (state n) = Ok avail
    /\ length children = length avail
    /\ forall (i : nat) a, avail !! i = Some a ->
         exists c,
           children !! i = Some c
           /\ result p (state n) a = Ok (state c)
           /\ parent c = Some n /\ action c = Some a
           /\ depth c = depth n + 1
           /\ node_path_cost c
              = path_cost p (node_path_cost n) (state n) a (state c).
Proof.
  intros He. destruct (expand_Ok_all _ _ _ He) as (avail & Hav & Hall).
  exists avail. split_and!; [done| |].
  - symmetry. by eapply Forall2_length.
  - intros i a Hi.
    destruct (Forall2_lookup_l _ _ _ _ _ Hall Hi) as (c & Hc & Hca).
    apply child_node_Ok in Hca as (s' & Hs' & ->).
    eexists. split_and!; [exact Hc|exact Hs'|done..].
Qed.

(** X2. [expand] returns exactly when [problem.actions] returns on the
    node's state and [problem.result] returns on each of the actions;
    otherwise it raises. *)
Theorem expand_defined p n :
  (exists children, expand p n = Ok children)
  <-> exists avail,
        actions p (state n) = Ok avail
        /\ forall a, a ∈ avail -> exists s', result p (state n) a = Ok s'.
Proof.
  split.
  - intros [children He].
    destruct (expand_Ok_all _ _ _ He) as (avail & Hav & Hall).
    exists avail. split; [done|]. intros a Ha.
    apply list_elem_of_lookup in Ha as [i Hi].
    destruct (Forall2_lookup_l _ _ _ _ _ Hall Hi) as (c & _ & Hca).
    apply child_node_Ok in Hca as (s' & Hs' & _). eauto.
  - intros (avail & Hav & Hres). unfold expand. rewrite Hav. simpl.
    destruct (mapM_total (child_node p n) (fun _ => True) avail)
      as (k & Hk & _); [|eauto].
    intros a Ha. destruct (Hres a Ha) as [s' Hs']. unfold child_node.
    rewrite Hs'. simpl. eauto.
Qed.

Lemma path_last n : last (path n) = Some n.
Proof. destruct n. unfold path. simpl. rewrite reverse_cons. apply last_snoc. Qed.

Lemma path_states p n :
  generated p n ->
  exists acts,
    solution n = Some <$> acts
    /\ length (path n) = S (length acts)
    /\ apply_actions p (initial p) acts = Ok (state n)
    /\ depth n = Z.of_nat (length acts)
    /\ forall (i : nat) m, path n !! i = Some m ->
         apply_actions p (initial p) (take i acts) = Ok (state m)
         /\ depth m = Z.of_nat i.
Proof.
  induction 1 as [|n children c Hn IH He Hc].
  - exists []. split_and!; try reflexivity.
    intros [|i] m Hm; [|done]. injection Hm as <-. by split.
  - destruct IH as (acts & Hs & Hlen & Hap & Hd & Hpath).
    destruct (expand_Ok _ _ _ _ He Hc) as (avail & a & s' & Hav & Hin & Hr & ->).
    exists (acts ++ [a]). rewrite path_child. split_and!.
    + unfold solution. rewrite path_child, drop_app_le by lia.
      rewrite !fmap_app. simpl. unfold solution in Hs. by rewrite Hs.
    + rewrite !length_app. simpl. lia.
    + by eapply apply_actions_snoc.
    + rewrite length_app. simpl. lia.
    + intros i m Hm. apply lookup_app_Some in Hm as [Hm|[Hge Hm]].
      * pose proof (lookup_lt_Some _ _ _ Hm) as Hlt.
        rewrite take_app_le by lia. by apply Hpath.
      * rewrite Hlen in Hge, Hm.
        destruct (i - S (length acts))%nat as [|?] eqn:Hi; [|done].
        injection Hm as <-. rewrite take_ge by (rewrite length_app; simpl; lia).
        split; [by eapply apply_actions_snoc|]. simpl. lia.
Qed.

(** X3. The path of a generated node has one node more than its solution
    has actions and ends with the node; the node at position [i] of the
    path has depth [i] and its state is what the first [i] actions of the
    solution lead to from the initial state. *)
Theorem path_follows_solution p n :
  generated p n ->
  exists acts,
    solution n = Some <$> acts
    /\ length (path n) = S (length acts)
    /\ last (path n) = Some n
    /\ forall (i : nat) m, path n !! i = Some m ->
         apply_actions p (initial p) (take i acts) = Ok (state m)
         /\ depth m = Z.of_nat i.
Proof.
  intros Hg. destruct (path_states _ _ Hg) as (acts & Hs & Hl & _ & _ & Hp).
  exists acts. split_and!; auto. apply path_last.
Qed.

(** X4. When every step of the problem costs [w], as the single unit of
    the default [path_cost], the path cost of a generated node is [w]
    times its depth. *)
Theorem uniform_path_cost p (w : Z) n :
  (forall (g : Z) s a s', path_cost p g s a s' = g + w) ->
  generated p n ->
  node_path_cost n = w * depth n.
Proof.
  intros Hw. induction 1 as [|n children c Hn IH He Hc].
  - simpl. lia.
  - destruct (expand_Ok _ _ _ _ He Hc) as (avail & a & s' & _ & _ & _ & ->).
    simpl. rewrite Hw, IH. lia.
Qed.

(** ** Breadth-first search *)

Lemma bfs_step_genuine p sl st :
  bfs_genuine p st -> bfs_genuine p (bfs_step p sl st).
Proof.
  destruct st as [[|node F] E k|[|c cs] F E k|r]; simpl; try done.
  - intros HF. apply Forall_cons in HF as [Hn HF].
    destruct (_ && _); [done|].
    destruct (expand p node) as [children|] eqn:Hex; [|done]. simpl.
    split; [done|]. apply Forall_forall. intros c Hc.
    by eapply generated_child.
  - by intros [HF _].
  - intros [HF Hc]. apply Forall_cons in Hc as [Hc Hcs].
    destruct (_ && _); [|done].
    destruct (goal_test p (state c)); [done|]. simpl. split; [|done].
    apply Forall_app. split; [done|]. by constructor.
Qed.

Lemma bfs_reach_genuine p sl j :
  bfs_genuine p (bfs_steps p sl j (bfs_init p)).
Proof.
  induction j as [|j IH].
  - cbn [bfs_steps]. unfold bfs_init. simpl.
    destruct (goal_test p (initial p)); simpl; [constructor|].
    constructor; [constructor|done].
  - rewrite bfs_steps_S. by apply bfs_step_genuine.
Qed.

(** X5. Whatever the step limit, a node that breadth-first search returns
    was generated from the root: its [solution()] is a sequence of
    admissible actions that leads from the initial state to its state, as
    long as its depth.  This covers the node returned by the step limit. *)
Theorem bfs_returns_generated p sl fuel n :
  breadth_first_graph_search fuel p sl = Some (Ok (Some n)) ->
  exists acts,
    solution n = Some <$> acts
    /\ plan p (initial p) acts (state n)
    /\ Z.of_nat (length acts) = depth n.
Proof.
  unfold breadth_first_graph_search. intros Hrun.
  pose proof (bfs_reach_genuine p sl fuel) as Hg.
  destruct (bfs_steps p sl fuel (bfs_init p)) as [| |r]; try discriminate.
  injection Hrun as ->. simpl in Hg.
  destruct (generated_spec _ _ Hg) as (rest & acts & _ & _ & Hs & Hd & _ & Hpl).
  eauto.
Qed.

(** X6. With the step limit off, every node of the frontier of
    breadth-first search is not a goal and was reached by a shortest
    sequence of admissible actions: no sequence leads from the initial
    state to the node's state in fewer actions than its [solution()]. *)
Theorem bfs_frontier_shortest p sl j F E m :
  sl <= 0 ->
  bfs_vars (bfs_steps p sl j (bfs_init p)) = Some (F, E) ->
  m ∈ F ->
  goal_test p (state m) = false
  /\ exists acts,
       solution m = Some <$> acts
       /\ plan p (initial p) acts (state m)
       /\ forall acts', plan p (initial p) acts' (state m) ->
            (length acts <= length acts')%nat.
Proof.
  intros Hsl Hv Hm. pose proof (bfs_reach_level p sl j Hsl) as Hinv.
  assert (Hok : Forall (node_ok p) F).
  { destruct (bfs_steps p sl j (bfs_init p)) as [F0 E0 k|cs F0 E0 k|r];
      simpl in Hv; try discriminate; injection Hv as -> ->.
    - by destruct Hinv as (_ & Hok & _).
    - by destruct Hinv as (node & _ & _ & _ & _ & _ & Hok & _). }
  rewrite Forall_forall in Hok. destruct (Hok m Hm) as (Hgen & Hsh & Hgoal).
  split; [done|].
  destruct (generated_spec _ _ Hgen) as (rest & acts & _ & _ & Hs & Hd & _ & Hpl).
  exists acts. split_and!; [done|done|]. intros acts' Hpl'.
  pose proof (plan_reach p 0 _ _ _ (reach_init p) Hpl') as Hr.
  pose proof (Hsh _ Hr) as Hle. simpl in Hle. lia.
Qed.

Lemma layered_sorted (d : Z) (F : list (Node State Action)) (i i' : nat) m m' :
  layered d F -> F !! i = Some m -> F !! i' = Some m' -> (i <= i')%nat ->
  depth m <= depth m' <= depth m + 1.
Proof.
  intros (Fa & Fb & -> & Ha & Hb) Hm Hm' Hle.
  rewrite Forall_forall in Ha, Hb.
  apply lookup_app_Some in Hm as [Hm|[Hge Hm]];
    apply lookup_app_Some in Hm' as [Hm'|[Hge' Hm']].
  - rewrite (Ha m), (Ha m'); [lia|by eapply list_elem_of_lookup_2..].
  - rewrite (Ha m), (Hb m'); [lia|by eapply list_elem_of_lookup_2..].
  - apply lookup_lt_Some in Hm'. lia.
  - rewrite (Hb m), (Hb m'); [lia|by eapply list_elem_of_lookup_2..].
Qed.

(** X7. With the step limit off, the frontier of breadth-first search is
    ordered by depth and holds at most two consecutive depths: a node is
    at most as deep as any node behind it, which is at most one deeper. *)
Theorem bfs_frontier_by_depth p sl j F E (i i' : nat) m m' :
  sl <= 0 ->
  bfs_vars (bfs_steps p sl j (bfs_init p)) = Some (F, E) ->
  F !! i = Some m -> F !! i' = Some m' -> (i <= i')%nat ->
  depth m <= depth m' <= depth m + 1.
Proof.
  intros Hsl Hv Hm Hm' Hle. pose proof (bfs_reach_level p sl j Hsl) as Hinv.
  destruct (bfs_steps p sl j (bfs_init p)) as [F0 E0 k|cs F0 E0 k|r];
    simpl in Hv; try discriminate; injection Hv as -> ->.
  - destruct Hinv as ([d Hlay] & _). by eapply layered_sorted.
  - destruct Hinv as (node & _ & _ & _ & _ & Hlay & _).
    by eapply layered_sorted.
Qed.

Lemma bfs_None_before p sl j :
  bfs_steps p sl j (bfs_init p) = BfsDone (Ok None) ->
  exists j' E k, bfs_steps p sl j' (bfs_init p) = BfsLoop [] E k.
Proof.
  induction j as [|j IH].
  - cbn [bfs_steps]. unfold bfs_init. by destruct (goal_test _ _).
  - rewrite bfs_steps_S.
    destruct (bfs_steps p sl j (bfs_init p))
      as [[|node F] E k|[|c cs] F E k|r] eqn:Hj; simpl.
    + eauto.
    + destruct (_ && _); [done|]. by destruct (expand p node).
    + done.
    + destruct (_ && _); [|done]. by destruct (goal_test p (state c)).
    + intros [= ->]. by apply IH.
Qed.

Lemma closure_all p (E : gset State) current k t :
  closure p E [] current [] -> initial p ∈ E -> reach p k t -> t ∈ E.
Proof.
  intros Hcl Hinit. induction 1 as [|k s a s' avail Hr IH Hav Hin Hres]; [done|].
  destruct (Hcl s avail a s' IH Hav Hin Hres) as [?|[HF|[_ HF]]]; [done| |];
    by apply elem_of_nil in HF.
Qed.

Lemma bfs_None_sound p sl j :
  sl <= 0 ->
  bfs_steps p sl j (bfs_init p) = BfsDone (Ok None) ->
  no_goal_reachable p.
Proof.
  intros Hsl Hj.
  destruct (bfs_None_before _ _ _ Hj) as (j' & E & k & Hj').
  pose proof (bfs_reach_level p sl j' Hsl) as Hinv. rewrite Hj' in Hinv.
  destruct Hinv as (_ & _ & Hng & Hcl & [Hinit|Hinit]);
    [|by apply elem_of_nil in Hinit].
  intros acts t Hpl. apply Hng.
  pose proof (plan_reach p 0 _ _ _ (reach_init p) Hpl) as Hr.
  by eapply closure_all.
Qed.

(** X8. With the step limit off, breadth-first search returns [None]
    only when no goal can be reached: then no sequence of admissible
    actions leads from the initial state to a state that passes
    [goal_test]. *)
Theorem bfs_None_no_goal p sl fuel :
  sl <= 0 ->
  breadth_first_graph_search fuel p sl = Some (Ok None) ->
  no_goal_reachable p.
Proof.
  unfold breadth_first_graph_search. intros Hsl Hrun.
  destruct (bfs_steps p sl fuel (bfs_init p)) as [| |r] eqn:Hj;
    try discriminate.
  injection Hrun as ->. by eapply bfs_None_sound.
Qed.

(** ** Termination on a finite state space *)

Section FiniteAny.

Variables (p : Problem State Action) (U : gset State).

Hypothesis initial_in : initial p ∈ U.
Hypothesis closed : forall s, s ∈ U ->
  exists avail, actions p s = Ok avail
    /\ forall a, a ∈ avail -> exists s', result p s a = Ok s' /\ s' ∈ U.

Lemma bfs_for_ends sl cs F E k :
  exists m,
    (exists F', bfs_steps p sl m (BfsFor cs F E k) = BfsLoop F' E k)
    \/ (exists c, bfs_steps p sl m (BfsFor cs F E k) = BfsDone (Ok (Some c))).
Proof.
  revert F. induction cs as [|c cs IH]; intros F.
  - exists 1%nat. left. by exists F.
  - destruct (bool_decide (state c ∉ E) && negb (deque_contains F c)) eqn:Hb.
    + destruct (goal_test p (state c)) eqn:Hg.
      * exists 1%nat. right. exists c. simpl. by rewrite Hb, Hg.
      * destruct (IH (F ++ [c])) as [m Hm]. exists (S m). simpl.
        by rewrite Hb, Hg.
    + destruct (IH F) as [m Hm]. exists (S m). simpl. by rewrite Hb.
Qed.

Lemma bfs_loop_ends sl N F E k :
  (size (U ∖ E) < N)%nat ->
  bfs_dedup (BfsLoop F E k) -> bfs_within U (BfsLoop F E k) ->
  exists m r, bfs_steps p sl m (BfsLoop F E k) = BfsDone (Ok r).
Proof.
  revert F E k.
  induction N as [|N IH]; intros F E k HN Hd Hw; [lia|].
  destruct F as [|node F]; [by exists 1%nat, None|].
  destruct ((sl >? 0) && (k + 1 >=? sl)) eqn:Hlim.
  { exists 1%nat, (Some node). simpl. by rewrite Hlim. }
  pose proof Hw as Hw0. apply Forall_cons in Hw0 as [Hn _].
  destruct (expand_within p U closed node Hn) as (children & Hex & Hch).
  assert (Hstep : bfs_step p sl (BfsLoop (node :: F) E k)
                  = BfsFor children F (E ∪ {[state node]}) (k + 1)).
  { simpl. by rewrite Hlim, Hex. }
  destruct (bfs_for_ends sl children F (E ∪ {[state node]}) (k + 1))
    as (m1 & [[F' Hm1]|[c Hm1]]).
  - destruct (bfs_steps_within p U closed sl (S m1) _ Hd Hw) as [Hd' Hw'].
    cbn [bfs_steps] in Hd', Hw'. rewrite Hstep, Hm1 in Hd', Hw'.
    destruct (IH F' (E ∪ {[state node]}) (k + 1)) as (m2 & r & Hm2);
      [|done|done|].
    + assert (state node ∉ E) as HnE.
      { destruct Hd as [_ Hdis]. apply Hdis. simpl. apply list_elem_of_here. }
      pose proof (size_explore U E (state node) Hn HnE). lia.
    + exists (S m1 + m2)%nat, r. rewrite bfs_steps_add. cbn [bfs_steps].
      by rewrite Hstep, Hm1.
  - exists (S m1), (Some c). cbn [bfs_steps]. by rewrite Hstep.
Qed.

Lemma bfs_ends_finite (sl : Z) :
  exists m r, bfs_steps p sl m (bfs_init p) = BfsDone (Ok r).
Proof.
  unfold bfs_init. simpl. destruct (goal_test p (initial p)).
  - exists 0%nat. eauto.
  - apply (bfs_loop_ends sl (S (size (U ∖ ∅)))); [lia| |].
    + split; simpl; [apply NoDup_singleton|].
      intros s _. apply not_elem_of_empty.
    + simpl. by constructor.
Qed.

(** X9. On a problem whose states lie in a finite set that holds the
    initial state and is closed under the actions, breadth-first search
    returns, whatever the step limit: for every large enough fuel the
    result is the same node or [None], and no raise. *)
Theorem bfs_terminates_finite (sl : Z) :
  exists fuel0 r, forall fuel, (fuel0 <= fuel)%nat ->
    breadth_first_graph_search fuel p sl = Some (Ok r).
Proof.
  destruct (bfs_ends_finite sl) as (m & r & Hm). exists m, r.
  intros fuel Hfuel.
  unfold breadth_first_graph_search.
  replace fuel with (m + (fuel - m))%nat by lia.
  by rewrite bfs_steps_add, Hm, bfs_steps_done.
Qed.

Lemma best_loop_ends f N F E k :
  (size (U ∖ E) < N)%nat ->
  best_dedup (BestLoop F E k) -> best_within U (BestLoop F E k) ->
  exists m r, best_steps state_lt p f m (BestLoop F E k) = BestDone (Ok r).
Proof.
  revert F E k.
  induction N as [|N IH]; intros F E k HN Hd Hw; [lia|].
  destruct F as [|e q]; [by exists 1%nat, None|].
  destruct (pq_pop state_lt (e :: q)) as [[node F1]|] eqn:Hpop; [|done].
  destruct (pq_pop_perm _ _ _ _ Hpop) as [v Hperm].
  destruct (goal_test p (state node)) eqn:Hgoal.
  { exists 1%nat, (Some node). cbn [best_steps]. unfold best_step.
    by rewrite Hpop, Hgoal. }
  assert (Hn : state node ∈ U).
  { simpl in Hw. setoid_rewrite Hperm in Hw. by apply Forall_cons in Hw as [? _]. }
  assert (HnE : state node ∉ E).
  { destruct Hd as [_ Hdis]. apply Hdis.
    change (state node) with ((fun e : Z * Node State Action => state e.2) (v, node)).
    apply list_elem_of_fmap_2. rewrite Hperm. apply list_elem_of_here. }
  destruct (expand_within p U closed node Hn) as (children & Hex & Hch).
  assert (Hstep : best_step state_lt p f (BestLoop (e :: q) E k)
                  = BestFor children F1 (E ∪ {[state node]}) (k + 1)).
  { unfold best_step. by rewrite Hpop, Hgoal, Hex. }
  destruct (best_for_runs state_lt p f children F1 (E ∪ {[state node]}) (k + 1))
    as (m1 & F' & Hm1).
  destruct (best_steps_within state_lt p U closed f (S m1) _ Hd Hw) as [Hd' Hw'].
  cbn [best_steps] in Hd', Hw'. rewrite Hstep, Hm1 in Hd', Hw'.
  destruct (IH F' (E ∪ {[state node]}) (k + 1)) as (m2 & r & Hm2);
    [|done|done|].
  - pose proof (size_explore U E (state node) Hn HnE). lia.
  - exists (S m1 + m2)%nat, r. rewrite best_steps_add. cbn [best_steps].
    by rewrite Hstep, Hm1.
Qed.

Lemma best_ends_finite (f : Node State Action -> Z) :
  exists m r, best_steps state_lt p f m (best_init p f) = BestDone (Ok r).
Proof.
  apply (best_loop_ends f (S (size (U ∖ ∅)))); [lia| |by constructor].
  split; simpl; [apply NoDup_singleton|].
  intros s _. apply not_elem_of_empty.
Qed.

(** X10. On a problem whose states lie in a finite set that holds the
    initial state and is closed under the actions, best-first search
    returns, whatever the score: for every large enough fuel the result is
    the same node or [None], and no raise. *)
Theorem best_terminates_finite (f : Node State Action -> Z) :
  exists fuel0 r, forall fuel, (fuel0 <= fuel)%nat ->
    best_first_graph_search state_lt fuel p f = Some (Ok r).
Proof.
  destruct (best_ends_finite f) as (m & r & Hm).
  exists m, r. intros fuel Hfuel.
  unfold best_first_graph_search, memoize. cbv zeta.
  replace fuel with (m + (fuel - m))%nat by lia.
  by rewrite best_steps_add, Hm, best_steps_done.
Qed.

End FiniteAny.

(** ** Best-first search *)

Lemma best_closure_all p (E : gset State) k t :
  best_closure p E [] [] -> initial p ∈ E -> reach p k t -> t ∈ E.
Proof.
  intros Hcl Hinit. induction 1 as [|k s a s' avail Hr IH Hav Hin Hres]; [done|].
  destruct (Hcl s avail a s' IH Hav Hin Hres) as [?|[HF|HF]]; [done| |];
    by apply elem_of_nil in HF.
Qed.

Lemma best_step_sound p f st :
  best_sound_inv p st -> best_sound_inv p (best_step state_lt p f st).
Proof.
  destruct st as [[|e q] E k|[|c cs] F E k|r]; try done.
  - intros (_ & Hng & Hcl & [Hinit|Hinit]); [|by apply elem_of_nil in Hinit].
    simpl. intros acts t Hpl. apply Hng.
    pose proof (plan_reach p 0 _ _ _ (reach_init p) Hpl) as Hr.
    by eapply best_closure_all.
  - intros (Hgen & Hng & Hcl & Hinit). unfold best_step.
    destruct (pq_pop state_lt (e :: q)) as [[node F]|] eqn:Hpop; [|done].
    apply pq_pop_perm in Hpop as [v Hperm].
    assert (Hst : forall s, s ∈ (fun e => state e.2) <$> e :: q ->
              s = state node \/ s ∈ (fun e => state e.2) <$> F).
    { intros s Hs. rewrite Hperm in Hs. by apply elem_of_cons in Hs. }
    setoid_rewrite Hperm in Hgen. apply Forall_cons in Hgen as [Hn Hgen].
    simpl in Hn.
    destruct (goal_test p (state node)) eqn:Hgoal; [done|].
    destruct (expand p node) as [children|] eqn:Hex; [|done].
    split_and!; [done| | | |].
    + apply Forall_forall. intros c Hc. by eapply generated_child.
    + intros s. rewrite elem_of_union, elem_of_singleton. intros [?| ->]; auto.
    + intros s avail a s'. rewrite elem_of_union, elem_of_singleton.
      intros [Hs| ->] Hav Hin Hres.
      * destruct (Hcl s avail a s' Hs Hav Hin Hres) as [?|[HF|HF]].
        -- left. by apply elem_of_union_l.
        -- destruct (Hst _ HF) as [->|?]; [|auto].
           left. apply elem_of_union_r. by apply elem_of_singleton.
        -- by apply elem_of_nil in HF.
      * right; right. by eapply expand_complete.
    + destruct Hinit as [?|HF].
      * left. by apply elem_of_union_l.
      * destruct (Hst _ HF) as [->|?]; [|auto].
        left. apply elem_of_union_r. by apply elem_of_singleton.
  - intros (Hgen & _ & Hng & Hcl & Hinit). split_and!; auto.
  - intros (Hgen & Hch & Hng & Hcl & Hinit).
    apply Forall_cons in Hch as [Hc Hch].
    assert (Happ : forall F',
              Forall (fun e => generated p e.2) F' ->
              (forall s, s ∈ (fun e => state e.2) <$> F ->
                 s ∈ (fun e => state e.2) <$> F' \/ s = state c) ->
              best_sound_inv p (BestFor cs (pq_append f F' c) E k)).
    { intros F' HF' Hsub.
      assert (Hin : forall s, s ∈ (fun e => state e.2) <$> F \/ s = state c ->
                s ∈ (fun e => state e.2) <$> pq_append f F' c).
      { intros s Hs. unfold pq_append. rewrite fmap_app, elem_of_app. simpl.
        destruct Hs as [Hs| ->].
        - destruct (Hsub s Hs) as [?| ->]; [by left|].
          right. apply list_elem_of_here.
        - right. apply list_elem_of_here. }
      split_and!; [|done|done| |].
      - unfold pq_append. apply Forall_app. split; [done|]. by constructor.
      - intros s avail a s' Hs Hav Hina Hres.
        destruct (Hcl s avail a s' Hs Hav Hina Hres) as [?|[?|Hc']]; auto.
        rewrite fmap_cons in Hc'. apply elem_of_cons in Hc' as [->|?]; auto.
      - destruct Hinit; auto. }
    assert (Hkeep : state c ∈ E \/ state c ∈ (fun e => state e.2) <$> F ->
              best_sound_inv p (BestFor cs F E k)).
    { intros Hin. split_and!; try done.
      intros s avail a s' Hs Hav Hina Hres.
      destruct (Hcl s avail a s' Hs Hav Hina Hres) as [?|[?|Hc']]; auto.
      rewrite fmap_cons in Hc'. apply elem_of_cons in Hc' as [->|?]; auto.
      destruct Hin; auto. }
    assert (Hrepl : pq_contains F c = true ->
              best_sound_inv p
                (match pq_getitem F c with
                 | Raise err => BestDone (Raise err)
                 | Ok f_old =>
                     if f c <? f_old
                     then match pq_delitem F c with
                          | Raise err => BestDone (Raise err)
                          | Ok frontier' =>
                              BestFor cs (pq_append f frontier' c) E k
                          end
                     else BestFor cs F E k
                 end)).
    { intros Hin. destruct (pq_getitem F c) as [f_old|]; [|done].
      destruct (f c <? f_old).
      - destruct (pq_delitem F c) as [F'|] eqn:Hdel; [|done].
        apply pq_delitem_spec in Hdel as (q1 & x & q2 & -> & -> & Hx & _).
        apply Forall_app in Hgen as [H1 H2].
        apply Forall_cons in H2 as [_ H2]. apply Happ.
        + apply Forall_app. by split.
        + intros s. rewrite !fmap_app, fmap_cons, !elem_of_app, elem_of_cons.
          simpl. rewrite Hx. intros [?|[?|?]]; auto.
      - apply Hkeep. right. by apply pq_contains_spec. }
    simpl. destruct (bool_decide (state c ∉ E)) eqn:HE; simpl.
    + destruct (pq_contains F c) eqn:HF; simpl; [by apply Hrepl|].
      apply Happ; [done|auto].
    + destruct (pq_contains F c) eqn:HF; [by apply Hrepl|].
      apply Hkeep. left. apply bool_decide_eq_false in HE.
      by apply dec_stable in HE.
Qed.

Lemma best_reach_sound p f j :
  best_sound_inv p (best_steps state_lt p f j (best_init p f)).
Proof.
  induction j as [|j IH].
  - cbn [best_steps]. unfold best_init, pq_append. simpl. split_and!.
    + constructor; [constructor|done].
    + intros s Hs. by apply not_elem_of_empty in Hs.
    + intros s avail a s' Hs. by apply not_elem_of_empty in Hs.
    + right. apply list_elem_of_here.
  - rewrite best_steps_S. by apply best_step_sound.
Qed.

(** X11. A node that best-first search returns passes [goal_test], and
    its [solution()] is a sequence of admissible actions that leads from
    the initial state to its state, whatever the score function. *)
Theorem best_returns_goal p f fuel n :
  best_first_graph_search state_lt fuel p f = Some (Ok (Some n)) ->
  goal_test p (state n) = true
  /\ exists acts,
       solution n = Some <$> acts
       /\ plan p (initial p) acts (state n)
       /\ Z.of_nat (length acts) = depth n.
Proof.
  unfold best_first_graph_search, memoize. cbv zeta. intros Hrun.
  pose proof (best_reach_sound p f fuel) as Hinv.
  destruct (best_steps state_lt p f fuel (best_init p f)) as [| |r];
    try discriminate.
  injection Hrun as ->. destruct Hinv as [Hgen Hgoal]. split; [done|].
  destruct (generated_spec _ _ Hgen) as (rest & acts & _ & _ & Hs & Hd & _ & Hpl).
  eauto.
Qed.

(** X12. Best-first search returns [None] only when no goal can be
    reached: then no sequence of admissible actions leads from the initial
    state to a state that passes [goal_test], whatever the score
    function. *)
Theorem best_None_no_goal p f fuel :
  best_first_graph_search state_lt fuel p f = Some (Ok None) ->
  no_goal_reachable p.
Proof.
  unfold best_first_graph_search, memoize. cbv zeta. intros Hrun.
  pose proof (best_reach_sound p f fuel) as Hinv.
  destruct (best_steps state_lt p f fuel (best_init p f)) as [| |r];
    try discriminate.
  by injection Hrun as ->.
Qed.

End SearchMore.

(** ** The further properties on instances *)

Lemma expand_children_witness :
  exists avail,
    actions (MazePuzzle_problem puzzle) (0, 0) = Ok avail
    /\ length [first_child;
               Node_init (0, 1) (Some (Node_init (0, 0) None None 0))
                 (Some "RIGHT"%string) 1] = length avail
    /\ forall (i : nat) a, avail !! i = Some a ->
         exists c,
           [first_child;
            Node_init (0, 1) (Some (Node_init (0, 0) None None 0))
              (Some "RIGHT"%string) 1] !! i = Some c
           /\ result (MazePuzzle_problem puzzle) (0, 0) a = Ok (state c)
           /\ parent c = Some (Node_init (0, 0) None None 0)
           /\ action c = Some a
           /\ depth c = 0 + 1
           /\ node_path_cost c
              = path_cost (MazePuzzle_problem puzzle) 0 (0, 0) a (state c).
Proof.
  apply (expand_children (MazePuzzle_problem puzzle)
           (Node_init (0, 0) None None 0)).
  vm_compute. reflexivity.
Defined.


(** ** The maze, further *)

Lemma py_getitem_lookup {A : Type} (l : list A) (i : Z) (a : A) :
  0 <= i -> l !! Z.to_nat i = Some a -> py_getitem l i = Ok a.
Proof.
  intros Hi Ha. pose proof (lookup_lt_Some _ _ _ Ha) as Hlt.
  unfold py_getitem. rewrite (proj2 (Z.ltb_ge _ _)) by lia.
  rewrite (proj2 (Z.leb_le _ _)) by lia.
  rewrite (proj2 (Z.ltb_lt _ _)) by lia. simpl. by rewrite Ha.
Qed.

Lemma grid_row grid (i : Z) :
  rectangular grid -> 0 <= i < grid_rows grid ->
  exists row, grid !! Z.to_nat i = Some row
    /\ Z.of_nat (length row) = grid_cols grid.
Proof.
  intros Hrect Hi. unfold grid_rows in Hi.
  destruct (lookup_lt_is_Some_2 grid (Z.to_nat i)) as [row Hrow]; [lia|].
  exists row. split; [done|].
  unfold rectangular in Hrect. rewrite Forall_forall in Hrect.
  apply Hrect. by eapply list_elem_of_lookup_2.
Qed.

Lemma cell_passable_in_grid grid st :
  rectangular grid -> cell_passable grid st = true -> in_grid grid st.
Proof.
  intros Hrect Hc. unfold cell_passable in Hc.
  apply andb_prop in Hc as [Hc Hrow]. apply andb_prop in Hc as [Hx Hy].
  apply Z.leb_le in Hx, Hy.
  destruct (grid !! Z.to_nat st.1) as [row|] eqn:Hr; [|done].
  apply bool_decide_eq_true in Hrow.
  pose proof (lookup_lt_Some _ _ _ Hr) as Hlt.
  pose proof (lookup_lt_Some _ _ _ Hrow) as Hlt'.
  assert (Hlen : Z.of_nat (length row) = grid_cols grid).
  { unfold rectangular in Hrect. rewrite Forall_forall in Hrect.
    apply Hrect. by eapply list_elem_of_lookup_2. }
  unfold in_grid, grid_rows. lia.
Qed.

Lemma cell_passable_outside grid st :
  rectangular grid -> ~ in_grid grid st -> cell_passable grid st = false.
Proof.
  intros Hrect Hout. destruct (cell_passable grid st) eqn:Hc; [|done].
  by apply cell_passable_in_grid in Hc.
Qed.

Lemma passable_cell grid (i j : Z) :
  rectangular grid -> in_grid grid (i, j) ->
  passable grid i j = Ok (cell_passable grid (i, j)).
Proof.
  intros Hrect [Hi Hj]. simpl in Hi, Hj.
  destruct (grid_row grid i Hrect Hi) as (row & Hrow & Hlen).
  destruct (lookup_lt_is_Some_2 row (Z.to_nat j)) as [cell Hcell]; [lia|].
  unfold passable. rewrite (py_getitem_lookup grid i row) by (done || lia).
  simpl. rewrite (py_getitem_lookup row j cell) by (done || lia). simpl.
  unfold cell_passable. simpl. rewrite Hrow, Hcell.
  rewrite (proj2 (Z.leb_le _ _)) by lia.
  rewrite (proj2 (Z.leb_le _ _)) by lia. simpl. f_equal.
  apply bool_decide_ext. split; [by intros ->|by intros [= ->]].
Qed.

(** The four guarded tests of [MazePuzzle.actions], on a cell of a
    rectangular grid. *)
Lemma maze_test_up grid (x y : Z) :
  rectangular grid -> in_grid grid (x, y) ->
  (if x >? 0 then passable grid (x - 1) y else Ok false)
  = Ok (cell_passable grid (x - 1, y)).
Proof.
  intros Hrect [Hx Hy]. simpl in Hx, Hy. destruct (Z.gtb_spec x 0).
  - apply passable_cell; [done|]. split; simpl; lia.
  - rewrite cell_passable_outside; [done|done|]. intros [? _]. simpl in *. lia.
Qed.

Lemma maze_test_down grid (x y : Z) :
  rectangular grid -> in_grid grid (x, y) ->
  (if x <? Z.of_nat (length grid) - 1 then passable grid (x + 1) y
   else Ok false)
  = Ok (cell_passable grid (x + 1, y)).
Proof.
  intros Hrect [Hx Hy]. simpl in Hx, Hy. unfold grid_rows in Hx.
  destruct (Z.ltb_spec x (Z.of_nat (length grid) - 1)).
  - apply passable_cell; [done|]. split; simpl; unfold grid_rows; lia.
  - rewrite cell_passable_outside; [done|done|].
    intros [? _]. unfold grid_rows in *. simpl in *. lia.
Qed.

Lemma maze_test_left grid (x y : Z) :
  rectangular grid -> in_grid grid (x, y) ->
  (if y >? 0 then passable grid x (y - 1) else Ok false)
  = Ok (cell_passable grid (x, y - 1)).
Proof.
  intros Hrect [Hx Hy]. simpl in Hx, Hy. destruct (Z.gtb_spec y 0).
  - apply passable_cell; [done|]. split; simpl; lia.
  - rewrite cell_passable_outside; [done|done|]. intros [_ ?]. simpl in *. lia.
Qed.

Lemma maze_test_right grid (x y : Z) :
  rectangular grid -> in_grid grid (x, y) ->
  (row0 <- py_getitem grid 0 ;;
   if y <? Z.of_nat (length row0) - 1 then passable grid x (y + 1)
   else Ok false)
  = Ok (cell_passable grid (x, y + 1)).
Proof.
  intros Hrect [Hx Hy]. simpl in Hx, Hy.
  destruct grid as [|row0 grid]; [unfold grid_rows in Hx; simpl in Hx; lia|].
  rewrite (py_getitem_lookup (row0 :: grid) 0 row0) by done. simpl.
  simpl in Hy. destruct (Z.ltb_spec y (Z.of_nat (length row0) - 1)).
  - apply passable_cell; [done|]. split; simpl; lia.
  - rewrite cell_passable_outside; [done|done|]. intros [_ ?]. simpl in *. lia.
Qed.

Lemma maze_actions_grid self (x y : Z) :
  rectangular (mp_maze self) -> in_grid (mp_maze self) (x, y) ->
  MazePuzzle_actions self (x, y)
  = Ok ((if cell_passable (mp_maze self) (x - 1, y)
         then ["UP"%string] else [])
        ++ (if cell_passable (mp_maze self) (x + 1, y)
            then ["DOWN"%string] else [])
        ++ (if cell_passable (mp_maze self) (x, y - 1)
            then ["LEFT"%string] else [])
        ++ (if cell_passable (mp_maze self) (x, y + 1)
            then ["RIGHT"%string] else [])).
Proof.
  intros Hrect Hin. unfold MazePuzzle_actions.
  rewrite maze_test_up, maze_test_down, maze_test_left by done.
  cbn [bind]. rewrite maze_test_right by done. cbn [bind].
  by destruct (cell_passable _ (x - 1, y)), (cell_passable _ (x + 1, y)),
    (cell_passable _ (x, y - 1)), (cell_passable _ (x, y + 1)).
Qed.

Lemma maze_actions_mem self (x y : Z) acts a :
  rectangular (mp_maze self) -> in_grid (mp_maze self) (x, y) ->
  MazePuzzle_actions self (x, y) = Ok acts ->
  a ∈ acts
  <-> exists st',
        MazePuzzle_result (x, y) a = Some st'
        /\ in_grid (mp_maze self) st'
        /\ cell_passable (mp_maze self) st' = true.
Proof.
  intros Hrect Hin Hacts. rewrite maze_actions_grid in Hacts by done.
  injection Hacts as <-. rewrite !elem_of_app. split.
  - intros [Ha|[Ha|[Ha|Ha]]];
      match type of Ha with
      | _ ∈ (if ?b then _ else _) => destruct b eqn:Hc
      end;
      try (by apply elem_of_nil in Ha);
      apply list_elem_of_singleton in Ha as ->;
      (eexists; split; [reflexivity|]);
      (split; [by apply cell_passable_in_grid|done]).
  - intros (st' & Hr & _ & Hc). unfold MazePuzzle_result in Hr.
    repeat case_bool_decide; subst; try discriminate;
      injection Hr as <-; rewrite Hc.
    + left. apply list_elem_of_here.
    + right; left. apply list_elem_of_here.
    + right; right; left. apply list_elem_of_here.
    + right; right; right. apply list_elem_of_here.
Qed.

(** X13. On a cell of a rectangular grid [MazePuzzle.actions] returns,
    and the actions it lists are exactly the moves whose target is a cell
    of the grid that holds ['.']: no move leaves the grid or enters a
    blocked cell, and no such move is left out. *)
Theorem maze_actions_exact self (x y : Z) :
  rectangular (mp_maze self) -> in_grid (mp_maze self) (x, y) ->
  exists acts,
    MazePuzzle_actions self (x, y) = Ok acts
    /\ forall a,
         a ∈ acts
         <-> exists st',
               MazePuzzle_result (x, y) a = Some st'
               /\ in_grid (mp_maze self) st'
               /\ cell_passable (mp_maze self) st' = true.
Proof.
  intros Hrect Hin. eexists. split; [by apply maze_actions_grid|].
  intros a. apply maze_actions_mem; [done|done|]. by apply maze_actions_grid.
Qed.

(** X14. Whatever the grid and the state, a list that
    [MazePuzzle.actions] returns is a sublist of UP, DOWN, LEFT, RIGHT:
    these names only, in this order, none twice. *)
Theorem maze_actions_sublist self st acts :
  MazePuzzle_actions self st = Ok acts ->
  sublist acts ["UP"; "DOWN"; "LEFT"; "RIGHT"]%string.
Proof.
  destruct st as [x y]. unfold MazePuzzle_actions. intros Hact.
  apply bind_Ok in Hact as (up & _ & Hact).
  apply bind_Ok in Hact as (down & _ & Hact).
  apply bind_Ok in Hact as (left & _ & Hact).
  apply bind_Ok in Hact as (right & _ & Hact).
  injection Hact as <-.
  destruct up, down, left, right; simpl;
    repeat first [apply sublist_nil | apply sublist_skip | apply sublist_cons].
Qed.

Lemma py_getitem_nil {A : Type} (i : Z) :
  py_getitem (@nil A) i = Raise IndexError.
Proof.
  unfold py_getitem. simpl.
  destruct (i <? 0) eqn:Hi;
    [apply Z.ltb_lt in Hi|apply Z.ltb_ge in Hi].
  - rewrite (proj2 (Z.leb_gt _ _)) by lia. done.
  - rewrite (proj2 (Z.ltb_ge _ _)) by lia. by rewrite andb_false_r.
Qed.

(** X15. On a maze without rows [MazePuzzle.actions] raises [IndexError]
    in every state. *)
Theorem maze_actions_empty (initial goal st : Z * Z) :
  MazePuzzle_actions (mkMazePuzzle initial goal []) st = Raise IndexError.
Proof.
  destruct st as [x y]. unfold MazePuzzle_actions, passable. simpl.
  rewrite !py_getitem_nil. simpl.
  by destruct (x >? 0), (x <? Z.of_nat 0 - 1), (y >? 0).
Qed.

(** X16. In a state below the last row, [x] greater than the number of
    rows, [MazePuzzle.actions] raises [IndexError]: the test for UP reads
    row [x - 1], which the grid does not have. *)
Theorem maze_actions_below self (x y : Z) :
  grid_rows (mp_maze self) < x ->
  MazePuzzle_actions self (x, y) = Raise IndexError.
Proof.
  unfold grid_rows. intros Hx. unfold MazePuzzle_actions.
  rewrite (proj2 (Z.gtb_gt _ _)) by lia.
  unfold passable at 1, py_getitem at 1.
  rewrite (proj2 (Z.ltb_ge _ _)) by lia.
  rewrite (proj2 (Z.ltb_ge (x - 1) _)) by lia.
  by rewrite andb_false_r.
Qed.

Lemma maze_result_opposite st a st' :
  MazePuzzle_result st a = Some st' ->
  MazePuzzle_result st' (opposite a) = Some st.
Proof.
  destruct st as [x y]. intros Hr. unfold MazePuzzle_result in Hr.
  repeat case_bool_decide; subst; try discriminate; injection Hr as <-.
  - transitivity (Some (x - 1 + 1, y)); [reflexivity|]. do 2 f_equal. lia.
  - transitivity (Some (x + 1 - 1, y)); [reflexivity|]. do 2 f_equal. lia.
  - transitivity (Some (x, y - 1 + 1)); [reflexivity|]. do 2 f_equal. lia.
  - transitivity (Some (x, y + 1 - 1)); [reflexivity|]. do 2 f_equal. lia.
Qed.

(** X17. In a rectangular grid a move made from a cell that holds ['.']
    can be undone: the opposite move is among the actions of the cell
    reached, and its result is the cell the move was made from. *)
Theorem maze_move_undone self st acts a st' :
  rectangular (mp_maze self) -> in_grid (mp_maze self) st ->
  cell_passable (mp_maze self) st = true ->
  MazePuzzle_actions self st = Ok acts -> a ∈ acts ->
  MazePuzzle_result st a = Some st' ->
  exists acts',
    MazePuzzle_actions self st' = Ok acts'
    /\ opposite a ∈ acts'
    /\ MazePuzzle_result st' (opposite a) = Some st.
Proof.
  intros Hrect Hin Hpass Hacts Ha Hres. destruct st as [x y].
  apply (maze_actions_mem self x y acts a Hrect Hin Hacts) in Ha
    as (st1 & Hres1 & Hin' & _).
  rewrite Hres in Hres1. injection Hres1 as <-.
  pose proof (maze_result_opposite _ _ _ Hres) as Hback.
  destruct st' as [x' y']. eexists. split; [by apply maze_actions_grid|].
  split; [|done].
  apply (maze_actions_mem self x' y' _ (opposite a) Hrect Hin');
    [by apply maze_actions_grid|].
  exists (x, y). by split_and!.
Qed.

(** X18. [MazePuzzle.h] is never negative and is zero exactly on the
    states that pass [MazePuzzle.goal_test]. *)
Theorem maze_h_zero_at_goal self (node : Node (Z * Z) string) :
  0 <= MazePuzzle_h self node
  /\ (MazePuzzle_h self node = 0
      <-> MazePuzzle_goal_test self (state node) = true).
Proof.
  unfold MazePuzzle_h, MazePuzzle_goal_test. split; [lia|].
  rewrite bool_decide_eq_true.
  destruct (state node) as [x y], (mp_goal self) as [gx gy]. simpl. split.
  - intros Hh. f_equal; lia.
  - intros [= -> ->]. lia.
Qed.

(** X19. One move changes [MazePuzzle.h] by exactly one, so [h] is at most
    the number of moves of any sequence of moves that leads to the goal,
    through walls or not. *)
Theorem maze_h_admissible self (node : Node (Z * Z) string) :
  (forall (node' : Node (Z * Z) string) a,
     MazePuzzle_result (state node) a = Some (state node') ->
     Z.abs (MazePuzzle_h self node' - MazePuzzle_h self node) = 1)
  /\ (forall acts,
        apply_actions (MazePuzzle_problem self) (state node) acts
        = Ok (mp_goal self) ->
        MazePuzzle_h self node <= Z.of_nat (length acts)).
Proof.
  assert (Hmove : forall (n n' : Node (Z * Z) string) a,
            MazePuzzle_result (state n) a = Some (state n') ->
            Z.abs (MazePuzzle_h self n' - MazePuzzle_h self n) = 1).
  { intros n n' a. unfold MazePuzzle_h, MazePuzzle_result.
    destruct (state n) as [x y], (state n') as [x' y'],
      (mp_goal self) as [gx gy]. simpl.
    repeat case_bool_decide; try discriminate; intros [= <- <-]; lia. }
  split; [apply Hmove|].
  intros acts. revert node. induction acts as [|a acts IH]; intros node; simpl.
  - intros [= Hst]. unfold MazePuzzle_h. rewrite Hst. lia.
  - intros Hrun. apply bind_Ok in Hrun as (st' & Hres & Hrun).
    destruct (MazePuzzle_result (state node) a) as [st1|] eqn:Hr;
      [|discriminate].
    injection Hres as ->.
    pose proof (IH (Node_init st' None None 0) Hrun) as Hle.
    pose proof (Hmove node (Node_init st' None None 0) a Hr) as Hone. lia.
Qed.

(** ** Searching a rectangular maze *)

Lemma elem_of_grid_cells grid st :
  st ∈ grid_cells grid <-> in_grid grid st.
Proof.
  unfold grid_cells, in_grid. rewrite elem_of_list_to_set, list_elem_of_bind.
  destruct st as [x y]. simpl. split.
  - intros (i & Hj & Hi). apply list_elem_of_fmap in Hj as (j & [= -> ->] & Hj).
    apply elem_of_seqZ in Hi, Hj. lia.
  - intros [Hx Hy]. exists x. split.
    + apply list_elem_of_fmap. exists y. split; [done|]. apply elem_of_seqZ. lia.
    + apply elem_of_seqZ. lia.
Qed.

Lemma maze_closed self (s : Z * Z) :
  rectangular (mp_maze self) ->
  s ∈ grid_cells (mp_maze self) ->
  exists avail,
    actions (MazePuzzle_problem self) s = Ok avail
    /\ forall a, a ∈ avail ->
         exists s', result (MazePuzzle_problem self) s a = Ok s'
           /\ s' ∈ grid_cells (mp_maze self).
Proof.
  intros Hrect Hs. apply elem_of_grid_cells in Hs. destruct s as [x y].
  eexists. split; [by apply maze_actions_grid|]. intros a Ha.
  apply (maze_actions_mem self x y _ a Hrect Hs) in Ha
    as (st' & Hres & Hin' & _); [|by apply maze_actions_grid].
  exists st'. cbn [result MazePuzzle_problem]. rewrite Hres. split; [done|].
  by apply elem_of_grid_cells.
Qed.

(** The admissible sequences of actions of the maze are the walks through
    cells that hold ['.']. *)
Lemma maze_plan_walk self s acts t :
  rectangular (mp_maze self) -> in_grid (mp_maze self) s ->
  plan (MazePuzzle_problem self) s acts t
  <-> maze_walk (mp_maze self) s acts = Some t.
Proof.
  intros Hrect. revert s. induction acts as [|a acts IH]; intros s Hs.
  - simpl. split.
    + by inversion 1.
    + intros [= ->]. constructor.
  - destruct s as [x y]. cbn [maze_walk]. split.
    + inversion 1 as [|s0 a0 acts0 s' t0 avail Hav Hin Hres Hpl]; subst.
      cbn [actions result MazePuzzle_problem] in Hav, Hres.
      apply (maze_actions_mem self x y avail a Hrect Hs Hav) in Hin
        as (st' & Hr & Hin' & Hc).
      rewrite Hr in Hres. injection Hres as <-.
      rewrite Hr, Hc. by apply IH.
    + destruct (MazePuzzle_result (x, y) a) as [st'|] eqn:Hr; [|done].
      destruct (cell_passable (mp_maze self) st') eqn:Hc; [|done].
      intros Hw.
      pose proof (cell_passable_in_grid _ _ Hrect Hc) as Hin'.
      eapply plan_cons.
      * cbn [actions MazePuzzle_problem]. by apply maze_actions_grid.
      * apply (maze_actions_mem self x y _ a Hrect Hs);
          [by apply maze_actions_grid|]. eauto.
      * cbn [result MazePuzzle_problem]. by rewrite Hr.
      * by apply IH.
Qed.

(** X20. On every rectangular maze with the initial state inside the grid,
    breadth-first search with the default step limit returns, without a
    raise.  A node it returns is at the goal and its [solution()] is a
    shortest walk from the initial state to the goal through cells that
    hold ['.']; it returns [None] exactly when there is no such walk. *)
Theorem maze_bfs_shortest self :
  rectangular (mp_maze self) -> in_grid (mp_maze self) (mp_initial self) ->
  exists fuel0 r,
    (forall fuel, (fuel0 <= fuel)%nat ->
       breadth_first_graph_search fuel (MazePuzzle_problem self) (-1)
       = Some (Ok r))
    /\ match r with
       | Some n =>
           state n = mp_goal self
           /\ exists acts,
                solution n = Some <$> acts
                /\ maze_walk (mp_maze self) (mp_initial self) acts
                   = Some (mp_goal self)
                /\ forall acts',
                     maze_walk (mp_maze self) (mp_initial self) acts'
                     = Some (mp_goal self) ->
                     (length acts <= length acts')%nat
       | None =>
           forall acts,
             maze_walk (mp_maze self) (mp_initial self) acts
             <> Some (mp_goal self)
       end.
Proof.
  intros Hrect Hin.
  destruct (bfs_ends_finite (MazePuzzle_problem self)
              (grid_cells (mp_maze self))) with (sl := -1)
    as (m & r & Hm).
  { by apply elem_of_grid_cells. }
  { intros s Hs. by apply maze_closed. }
  exists m, r. split.
  - intros fuel Hfuel. unfold breadth_first_graph_search.
    replace fuel with (m + (fuel - m))%nat by lia.
    by rewrite bfs_steps_add, Hm, bfs_steps_done.
  - destruct r as [n|].
    + pose proof (bfs_reach_level (MazePuzzle_problem self) (-1) m) as Hinv.
      rewrite Hm in Hinv. destruct Hinv as (Hgen & Hgoal & Hmin); [lia|].
      simpl in Hgoal. apply bool_decide_eq_true in Hgoal. split; [done|].
      destruct (generated_spec _ _ Hgen)
        as (rest & acts & _ & _ & Hs & Hd & _ & Hpl).
      exists acts. split_and!; [done| |].
      * rewrite <- Hgoal. by apply maze_plan_walk.
      * intros acts' Hw. apply maze_plan_walk in Hw; [|done|done].
        pose proof (plan_reach _ 0 _ _ _ (reach_init _) Hw) as Hr.
        assert (Hg : goal_test (MazePuzzle_problem self) (mp_goal self) = true)
          by (by apply bool_decide_eq_true).
        pose proof (Hmin _ _ Hr Hg) as Hle. simpl in Hle. lia.
    + intros acts Hw. apply maze_plan_walk in Hw; [|done|done].
      assert (Hno : no_goal_reachable (MazePuzzle_problem self)).
      { eapply (bfs_None_sound (MazePuzzle_problem self) (-1) m); [lia|done]. }
      specialize (Hno _ _ Hw). simpl in Hno.
      by apply bool_decide_eq_false in Hno.
Qed.

(** X21. On every rectangular maze with the initial state inside the grid,
    best-first search returns, without a raise, whatever the score.  A
    node it returns is at the goal and its [solution()] is a walk from the
    initial state to the goal through cells that hold ['.']; it returns
    [None] exactly when there is no such walk. *)
Theorem maze_best_first_finds self (state_lt : Z * Z -> Z * Z -> bool)
    (f : Node (Z * Z) string -> Z) :
  rectangular (mp_maze self) -> in_grid (mp_maze self) (mp_initial self) ->
  exists fuel0 r,
    (forall fuel, (fuel0 <= fuel)%nat ->
       best_first_graph_search state_lt fuel (MazePuzzle_problem self) f
       = Some (Ok r))
    /\ match r with
       | Some n =>
           state n = mp_goal self
           /\ exists acts,
                solution n = Some <$> acts
                /\ maze_walk (mp_maze self) (mp_initial self) acts
                   = Some (mp_goal self)
       | None =>
           forall acts,
             maze_walk (mp_maze self) (mp_initial self) acts
             <> Some (mp_goal self)
       end.
Proof.
  intros Hrect Hin.
  destruct (best_ends_finite state_lt (MazePuzzle_problem self)
              (grid_cells (mp_maze self))) with (f := f)
    as (m & r & Hm).
  { by apply elem_of_grid_cells. }
  { intros s Hs. by apply maze_closed. }
  exists m, r. split.
  - intros fuel Hfuel. unfold best_first_graph_search, memoize. cbv zeta.
    replace fuel with (m + (fuel - m))%nat by lia.
    by rewrite best_steps_add, Hm, best_steps_done.
  - pose proof (best_reach_sound state_lt (MazePuzzle_problem self) f m) as Hinv.
    rewrite Hm in Hinv. destruct r as [n|].
    + destruct Hinv as [Hgen Hgoal].
      simpl in Hgoal. apply bool_decide_eq_true in Hgoal. split; [done|].
      destruct (generated_spec _ _ Hgen)
        as (rest & acts & _ & _ & Hs & Hd & _ & Hpl).
      exists acts. split; [done|]. rewrite <- Hgoal. by apply maze_plan_walk.
    + intros acts Hw. apply maze_plan_walk in Hw; [|done|done].
      specialize (Hinv _ _ Hw). simpl in Hinv.
      by apply bool_decide_eq_false in Hinv.
Qed.

(** ** The further properties of the maze on instances *)

Lemma maze_rectangular : rectangular maze.
Proof. repeat (constructor; [reflexivity|]). constructor. Qed.

Lemma maze_start_in_grid : in_grid maze (0, 0).
Proof. unfold in_grid, grid_rows, grid_cols. simpl. lia. Qed.

Lemma path_follows_solution_witness :
  generated (MazePuzzle_problem puzzle) first_child
  /\ exists acts,
       solution first_child = Some <$> acts
       /\ length (path first_child) = S (length acts)
       /\ last (path first_child) = Some first_child
       /\ forall (i : nat) m, path first_child !! i = Some m ->
            apply_actions (MazePuzzle_problem puzzle) (0, 0) (take i acts)
            = Ok (state m)
            /\ depth m = Z.of_nat i.
Proof.
  assert (Hg : generated (MazePuzzle_problem puzzle) first_child).
  { eapply generated_child.
    - apply generated_root.
    - vm_compute. reflexivity.
    - apply list_elem_of_here. }
  split; [exact Hg|].
  exact (path_follows_solution (MazePuzzle_problem puzzle) first_child Hg).
Defined.

Lemma uniform_path_cost_witness :
  (forall (g : Z) (s : Z * Z) (a : string) (s' : Z * Z),
     path_cost (MazePuzzle_problem puzzle) g s a s' = g + 1)
  /\ generated (MazePuzzle_problem puzzle) first_child
  /\ node_path_cost first_child = 1 * depth first_child.
Proof.
  assert (Hw : forall (g : Z) (s : Z * Z) (a : string) (s' : Z * Z),
            path_cost (MazePuzzle_problem puzzle) g s a s' = g + 1)
    by reflexivity.
  assert (Hg : generated (MazePuzzle_problem puzzle) first_child).
  { eapply generated_child.
    - apply generated_root.
    - vm_compute. reflexivity.
    - apply list_elem_of_here. }
  split; [exact Hw|]. split; [exact Hg|].
  exact (uniform_path_cost (MazePuzzle_problem puzzle) 1 first_child Hw Hg).
Defined.

Lemma bfs_returns_generated_witness :
  exists n,
    breadth_first_graph_search 5 (MazePuzzle_problem puzzle) 2
    = Some (Ok (Some n))
    /\ goal_test (MazePuzzle_problem puzzle) (state n) = false
    /\ exists acts,
         solution n = Some <$> acts
         /\ plan (MazePuzzle_problem puzzle) (0, 0) acts (state n)
         /\ Z.of_nat (length acts) = depth n.
Proof.
  eexists. split; [vm_compute; reflexivity|]. split; [reflexivity|].
  apply (bfs_returns_generated (MazePuzzle_problem puzzle) 2 5).
  vm_compute. reflexivity.
Defined.

Lemma bfs_frontier_shortest_witness :
  exists F E m,
    -1 <= 0
    /\ bfs_vars (bfs_steps (MazePuzzle_problem puzzle) (-1) 7
                   (bfs_init (MazePuzzle_problem puzzle))) = Some (F, E)
    /\ m ∈ F
    /\ goal_test (MazePuzzle_problem puzzle) (state m) = false
    /\ exists acts,
         solution m = Some <$> acts
         /\ plan (MazePuzzle_problem puzzle) (0, 0) acts (state m)
         /\ forall acts',
              plan (MazePuzzle_problem puzzle) (0, 0) acts' (state m) ->
              (length acts <= length acts')%nat.
Proof.
  do 3 eexists. split; [lia|]. split; [vm_compute; reflexivity|].
  split; [apply list_elem_of_here|].
  eapply (bfs_frontier_shortest (MazePuzzle_problem puzzle) (-1) 7);
    [lia|vm_compute; reflexivity|apply list_elem_of_here].
Defined.

Lemma bfs_frontier_by_depth_witness :
  exists F E m m',
    -1 <= 0
    /\ bfs_vars (bfs_steps (MazePuzzle_problem puzzle) (-1) 7
                   (bfs_init (MazePuzzle_problem puzzle))) = Some (F, E)
    /\ F !! 0%nat = Some m /\ F !! 1%nat = Some m' /\ (0 <= 1)%nat
    /\ depth m <= depth m' <= depth m + 1.
Proof.
  do 4 eexists. split; [lia|]. split; [vm_compute; reflexivity|].
  split; [reflexivity|]. split; [reflexivity|]. split; [lia|].
  eapply (bfs_frontier_by_depth (MazePuzzle_problem puzzle) (-1) 7 _ _ 0 1);
    [lia|vm_compute; reflexivity|reflexivity|reflexivity|lia].
Defined.

Lemma bfs_None_no_goal_witness :
  -1 <= 0
  /\ breadth_first_graph_search 20 (MazePuzzle_problem corridor) (-1)
     = Some (Ok None)
  /\ no_goal_reachable (MazePuzzle_problem corridor).
Proof.
  split; [lia|]. split; [vm_compute; reflexivity|].
  apply (bfs_None_no_goal (MazePuzzle_problem corridor) (-1) 20); [lia|].
  vm_compute. reflexivity.
Defined.

Lemma bfs_terminates_finite_witness :
  exists fuel0 r, forall fuel, (fuel0 <= fuel)%nat ->
    breadth_first_graph_search fuel (MazePuzzle_problem corridor) 3
    = Some (Ok r).
Proof.
  apply (bfs_terminates_finite (MazePuzzle_problem corridor)
           {[ (0, 0); (0, 1) ]}).
  - apply elem_of_union_l. by apply elem_of_singleton.
  - exact corridor_closed.
Defined.

Lemma best_terminates_finite_witness :
  exists fuel0 r, forall fuel, (fuel0 <= fuel)%nat ->
    best_first_graph_search tuple_lt fuel (MazePuzzle_problem corridor)
      deepest_first
    = Some (Ok r).
Proof.
  apply (best_terminates_finite tuple_lt (MazePuzzle_problem corridor)
           {[ (0, 0); (0, 1) ]}).
  - apply elem_of_union_l. by apply elem_of_singleton.
  - exact corridor_closed.
Defined.

Lemma best_returns_goal_witness :
  exists n,
    best_first_graph_search tuple_lt 61 (MazePuzzle_problem puzzle)
      (MazePuzzle_h puzzle)
    = Some (Ok (Some n))
    /\ goal_test (MazePuzzle_problem puzzle) (state n) = true
    /\ exists acts,
         solution n = Some <$> acts
         /\ plan (MazePuzzle_problem puzzle) (0, 0) acts (state n)
         /\ Z.of_nat (length acts) = depth n.
Proof.
  eexists. split; [vm_compute; reflexivity|].
  apply (best_returns_goal tuple_lt (MazePuzzle_problem puzzle)
           (MazePuzzle_h puzzle) 61).
  vm_compute. reflexivity.
Defined.

Lemma best_None_no_goal_witness :
  best_first_graph_search tuple_lt 20 (MazePuzzle_problem corridor)
    (MazePuzzle_h corridor)
  = Some (Ok None)
  /\ no_goal_reachable (MazePuzzle_problem corridor).
Proof.
  split; [vm_compute; reflexivity|].
  apply (best_None_no_goal tuple_lt (MazePuzzle_problem corridor)
           (MazePuzzle_h corridor) 20).
  vm_compute. reflexivity.
Defined.

Lemma maze_actions_exact_witness :
  rectangular (mp_maze puzzle) /\ in_grid (mp_maze puzzle) (0, 0)
  /\ exists acts,
       MazePuzzle_actions puzzle (0, 0) = Ok acts
       /\ forall a,
            a ∈ acts
            <-> exists st',
                  MazePuzzle_result (0, 0) a = Some st'
                  /\ in_grid (mp_maze puzzle) st'
                  /\ cell_passable (mp_maze puzzle) st' = true.
Proof.
  split; [exact maze_rectangular|]. split; [exact maze_start_in_grid|].
  exact (maze_actions_exact puzzle 0 0 maze_rectangular maze_start_in_grid).
Defined.

Lemma maze_actions_sublist_witness :
  MazePuzzle_actions puzzle (1, 1)
  = Ok ["UP"; "DOWN"; "LEFT"; "RIGHT"]%string
  /\ sublist ["UP"; "DOWN"; "LEFT"; "RIGHT"]%string
       ["UP"; "DOWN"; "LEFT"; "RIGHT"]%string.
Proof.
  assert (Ha : MazePuzzle_actions puzzle (1, 1)
               = Ok ["UP"; "DOWN"; "LEFT"; "RIGHT"]%string) by reflexivity.
  split; [exact Ha|].
  exact (maze_actions_sublist puzzle (1, 1) _ Ha).
Defined.

Lemma maze_move_undone_witness :
  rectangular (mp_maze puzzle) /\ in_grid (mp_maze puzzle) (0, 0)
  /\ cell_passable (mp_maze puzzle) (0, 0) = true
  /\ MazePuzzle_actions puzzle (0, 0) = Ok ["DOWN"; "RIGHT"]%string
  /\ ("DOWN"%string ∈ ["DOWN"; "RIGHT"]%string)
  /\ MazePuzzle_result (0, 0) "DOWN" = Some (1, 0)
  /\ exists acts',
       MazePuzzle_actions puzzle (1, 0) = Ok acts'
       /\ opposite "DOWN" ∈ acts'
       /\ MazePuzzle_result (1, 0) (opposite "DOWN") = Some (0, 0).
Proof.
  assert (Hp : cell_passable (mp_maze puzzle) (0, 0) = true) by reflexivity.
  assert (Ha : MazePuzzle_actions puzzle (0, 0) = Ok ["DOWN"; "RIGHT"]%string)
    by reflexivity.
  assert (Hin : "DOWN"%string ∈ ["DOWN"; "RIGHT"]%string)
    by apply list_elem_of_here.
  assert (Hr : MazePuzzle_result (0, 0) "DOWN" = Some (1, 0)) by reflexivity.
  split_and!; [exact maze_rectangular|exact maze_start_in_grid|exact Hp
              |exact Ha|exact Hin|exact Hr|].
  exact (maze_move_undone puzzle (0, 0) _ "DOWN" (1, 0) maze_rectangular
           maze_start_in_grid Hp Ha Hin Hr).
Defined.

Lemma maze_bfs_shortest_witness :
  rectangular (mp_maze puzzle) /\ in_grid (mp_maze puzzle) (mp_initial puzzle)
  /\ exists fuel0 r,
       (forall fuel, (fuel0 <= fuel)%nat ->
          breadth_first_graph_search fuel (MazePuzzle_problem puzzle) (-1)
          = Some (Ok r))
       /\ match r with
          | Some n =>
              state n = mp_goal puzzle
              /\ exists acts,
                   solution n = Some <$> acts
                   /\ maze_walk (mp_maze puzzle) (mp_initial puzzle) acts
                      = Some (mp_goal puzzle)
                   /\ forall acts',
                        maze_walk (mp_maze puzzle) (mp_initial puzzle) acts'
                        = Some (mp_goal puzzle) ->
                        (length acts <= length acts')%nat
          | None =>
              forall acts,
                maze_walk (mp_maze puzzle) (mp_initial puzzle) acts
                <> Some (mp_goal puzzle)
          end.
Proof.
  split; [exact maze_rectangular|]. split; [exact maze_start_in_grid|].
  exact (maze_bfs_shortest puzzle maze_rectangular maze_start_in_grid).
Defined.

Lemma maze_best_first_finds_witness :
  rectangular (mp_maze puzzle) /\ in_grid (mp_maze puzzle) (mp_initial puzzle)
  /\ exists fuel0 r,
       (forall fuel, (fuel0 <= fuel)%nat ->
          best_first_graph_search tuple_lt fuel (MazePuzzle_problem puzzle)
            (MazePuzzle_h puzzle)
          = Some (Ok r))
       /\ match r with
          | Some n =>
              state n = mp_goal puzzle
              /\ exists acts,
                   solution n = Some <$> acts
                   /\ maze_walk (mp_maze puzzle) (mp_initial puzzle) acts
                      = Some (mp_goal puzzle)
          | None =>
              forall acts,
                maze_walk (mp_maze puzzle) (mp_initial puzzle) acts
                <> Some (mp_goal puzzle)
          end.
Proof.
  split; [exact maze_rectangular|]. split; [exact maze_start_in_grid|].
  exact (maze_best_first_finds puzzle tuple_lt (MazePuzzle_h puzzle)
           maze_rectangular maze_start_in_grid).
Defined.

Lemma maze_actions_below_witness :
  grid_rows (mp_maze puzzle) < 7
  /\ MazePuzzle_actions puzzle (7, 2) = Raise IndexError.
Proof.
  assert (Hx : grid_rows (mp_maze puzzle) < 7) by (unfold grid_rows; simpl; lia).
  split; [exact Hx|]. exact (maze_actions_below puzzle 7 2 Hx).
Defined.
